(** * Checkmate GP service worker (sw.js): offline-asset caching agent

    A shallow embedding of [sw.js] and of the three host primitives it is
    written against (the network [fetch], the cache storage [caches] and
    promises), followed by the properties of its install, activate and
    fetch handlers. *)

From Stdlib Require Import List String Ascii ZArith Bool Lia Permutation.
Import ListNotations.

Local Open Scope string_scope.
Local Open Scope list_scope.

Set Implicit Arguments.

(** Two string literals differ. *)
Ltac strings_differ := apply String.eqb_neq; vm_compute; reflexivity.

(** ** Requests and responses *)

(** What [new URL(e.request.url)] exposes; the source reads [origin] and
    [pathname], the query string is part of the cache key only. *)
Record URL := mkURL {
  origin : string;
  pathname : string;
  search : string
}.

Record Request := mkRequest {
  method : string;
  url : URL;
  mode : string
}.

Record Response := mkResponse {
  status : Z;
  body : string
}.

(** [res.clone()]: a second response with the same status and body. *)
Definition clone (res : Response) : Response :=
  {| status := status res; body := body res |}.

(** [Response.ok]: the status is in the range 200-299. *)
Definition ok (res : Response) : bool :=
  ((200 <=? status res) && (status res <=? 299))%Z.

Definition url_eqb (a b : URL) : bool :=
  (origin a =? origin b) && (pathname a =? pathname b) && (search a =? search b).

(** Request identity of the cache: method and URL ([mode] takes no part). *)
Definition request_key (r : Request) : string * URL := (method r, url r).

Definition same_request (a b : Request) : bool :=
  (method a =? method b) && url_eqb (url a) (url b).

(** JavaScript [s.endsWith(t)]. *)
Definition endsWith (s t : string) : bool :=
  (String.length t <=? String.length s)%nat
  && (substring (String.length s - String.length t) (String.length t) s =? t).

(** ** Cache storage

    A cache is the list of its entries in insertion order; the storage is
    the list of the named caches in creation order, the order in which
    [caches.keys()] lists them and [caches.match] searches them.

    Requests and responses carry no headers here, so a lookup compares
    method and URL: this is the matching of the Cache for responses without
    a [Vary] header. The properties below look an entry up by the request it
    was stored under, or take what the lookup finds as given. *)

Definition Cache := list (Request * Response).
Definition CacheStorage := list (string * Cache).

(** [cache.match(r)] *)
Fixpoint cache_match (c : Cache) (r : Request) : option Response :=
  match c with
  | [] => None
  | (k, v) :: c' => if same_request k r then Some v else cache_match c' r
  end.

(** [cache.delete(r)] *)
Definition cache_delete (c : Cache) (r : Request) : Cache :=
  filter (fun kv => negb (same_request (fst kv) r)) c.

(** [cache.put(r, v)]: an entry with the same key is replaced. *)
Definition cache_put (c : Cache) (r : Request) (v : Response) : Cache :=
  cache_delete c r ++ [(r, v)].

Definition cache_keys (c : Cache) : list (string * URL) :=
  map (fun kv => request_key (fst kv)) c.

(** [caches.keys()] *)
Definition storage_keys (cs : CacheStorage) : list string := map fst cs.

(** [caches.has(n)] *)
Definition storage_has (cs : CacheStorage) (n : string) : bool :=
  existsb (fun nc => fst nc =? n) cs.

Fixpoint storage_get (cs : CacheStorage) (n : string) : option Cache :=
  match cs with
  | [] => None
  | (m, c) :: cs' => if m =? n then Some c else storage_get cs' n
  end.

(** [caches.open(n)]: create-if-absent. *)
Definition storage_open (cs : CacheStorage) (n : string) : CacheStorage :=
  if storage_has cs n then cs else cs ++ [(n, [])].

(** [caches.delete(n)] *)
Definition storage_delete (cs : CacheStorage) (n : string) : CacheStorage :=
  filter (fun nc => negb (fst nc =? n)) cs.

(** Update of the cache named [n] in place. *)
Fixpoint storage_update (cs : CacheStorage) (n : string) (f : Cache -> Cache)
  : CacheStorage :=
  match cs with
  | [] => []
  | (m, c) :: cs' =>
      if m =? n then (m, f c) :: cs' else (m, c) :: storage_update cs' n f
  end.

(** [caches.match(r)]: the first cache, in creation order, with a match. *)
Fixpoint storage_match (cs : CacheStorage) (r : Request) : option Response :=
  match cs with
  | [] => None
  | (_, c) :: cs' =>
      match cache_match c r with
      | Some v => Some v
      | None => storage_match cs' r
      end
  end.

(** The entry of [r] in the cache named [n], if any. *)
Definition entry (cs : CacheStorage) (n : string) (r : Request)
  : option Response :=
  match storage_get cs n with
  | Some c => cache_match c r
  | None => None
  end.

(** ** Host: network and storage oracle *)

Record Host := mkHost {
  (** [None]: the network call fails. *)
  network : Request -> option Response;
  (** Whether the storage accepts the entry (quota and the like). *)
  storable : Request -> Response -> bool;
  (** Whether the entry fetched for the request is written all the same when
      the [addAll] batch it belongs to is rejected (for no request, where the
      host undoes a failed batch). *)
  left_on_failure : Request -> bool
}.

(** ** Promises over the world *)

Inductive Error := NetworkError | BadResponse | StoreError.

Inductive Settled (A : Type) :=
| Fulfilled (a : A)
| Rejected (e : Error).
Arguments Fulfilled {A} a.
Arguments Rejected {A} e.

(** The calls a handler makes, in the order it makes them. *)
Inductive Effect :=
| NetFetch (r : Request)
| CachesOpen (n : string)
| CachesKeys
| CachesDelete (n : string)
| CachesMatch (r : Request)
| CacheAddAll (n : string) (rs : list Request)
| CachePut (n : string) (r : Request) (v : Response)
| SkipWaiting
| ClientsClaim.

(** What is left to run of a chain nobody awaits,
    [caches.open(n).then(cache => cache.put(r, v))], once [caches.open(n)]
    has been called: the put of [v] under [r] into the cache opened as [n]. *)
Inductive Task :=
| OpenPut (n : string) (r : Request) (v : Response).

Record World := mkWorld {
  storage : CacheStorage;
  pending : list Task;
  log : list Effect
}.

Definition set_storage (cs : CacheStorage) (w : World) : World :=
  {| storage := cs; pending := pending w; log := log w |}.

Definition emit (ev : Effect) (w : World) : World :=
  {| storage := storage w; pending := pending w; log := log w ++ [ev] |}.

Definition detach (t : Task) (w : World) : World :=
  {| storage := storage w; pending := pending w ++ [t]; log := log w |}.

Definition Promise (A : Type) : Type := World -> Settled A * World.

Definition resolve {A} (a : A) : Promise A := fun w => (Fulfilled a, w).

Definition reject {A} (e : Error) : Promise A := fun w => (Rejected e, w).

(** [p.then(f)] *)
Definition and_then {A B} (p : Promise A) (f : A -> Promise B) : Promise B :=
  fun w =>
    match p w with
    | (Fulfilled a, w') => f a w'
    | (Rejected e, w') => (Rejected e, w')
    end.

(** [p.catch(g)] *)
Definition catch {A} (p : Promise A) (g : Error -> Promise A) : Promise A :=
  fun w =>
    match p w with
    | (Fulfilled a, w') => (Fulfilled a, w')
    | (Rejected e, w') => g e w'
    end.

Notation "x <- p ;; q" := (and_then p (fun x => q))
  (at level 61, p at next level, right associativity).
Notation "p ;;; q" := (and_then p (fun _ => q))
  (at level 61, right associativity).

(** [Promise.all(ps)] *)
Fixpoint promise_all {A} (ps : list (Promise A)) : Promise (list A) :=
  match ps with
  | [] => resolve []
  | p :: ps' => a <- p ;; l <- promise_all ps' ;; resolve (a :: l)
  end.

(** [p.then(k)] as a statement, its result neither returned nor awaited: [p]
    is called now, what the callback does is left as a task, and a rejection
    is nobody's. *)
Definition and_later {A} (p : Promise A) (k : A -> Task) : Promise unit :=
  fun w =>
    match p w with
    | (Fulfilled a, w') => (Fulfilled tt, detach (k a) w')
    | (Rejected _, w') => (Fulfilled tt, w')
    end.

(** ** Host primitives *)

Definition fetch (h : Host) (r : Request) : Promise Response :=
  fun w =>
    match network h r with
    | Some res => (Fulfilled res, emit (NetFetch r) w)
    | None => (Rejected NetworkError, emit (NetFetch r) w)
    end.

Definition caches_open (n : string) : Promise string :=
  fun w =>
    (Fulfilled n, emit (CachesOpen n) (set_storage (storage_open (storage w) n) w)).

Definition caches_keys : Promise (list string) :=
  fun w => (Fulfilled (storage_keys (storage w)), emit CachesKeys w).

Definition caches_delete (n : string) : Promise bool :=
  fun w =>
    (Fulfilled (storage_has (storage w) n),
     emit (CachesDelete n) (set_storage (storage_delete (storage w) n) w)).

Definition caches_match (r : Request) : Promise (option Response) :=
  fun w => (Fulfilled (storage_match (storage w) r), emit (CachesMatch r) w).

Definition put (h : Host) (n : string) (r : Request) (v : Response)
  : Promise unit :=
  fun w =>
    if storable h r v
    then (Fulfilled tt,
          emit (CachePut n r v)
            (set_storage (storage_update (storage w) n (fun c => cache_put c r v)) w))
    else (Rejected StoreError, emit (CachePut n r v) w).

(** The responses [cache.addAll] collects: every request is fetched, and a
    failed fetch, a response that is not [ok] or an entry the storage refuses
    fails the whole batch. *)
Fixpoint collect (h : Host) (rs : list Request)
  : Settled (list (Request * Response)) :=
  match rs with
  | [] => Fulfilled []
  | r :: rs' =>
      match network h r with
      | None => Rejected NetworkError
      | Some res =>
          if negb (ok res) then Rejected BadResponse
          else if negb (storable h r res) then Rejected StoreError
          else match collect h rs' with
               | Fulfilled l => Fulfilled ((r, res) :: l)
               | Rejected e => Rejected e
               end
      end
  end.

Definition put_all (c : Cache) (l : list (Request * Response)) : Cache :=
  fold_left (fun c kv => cache_put c (fst kv) (snd kv)) l c.

(** The entries of a batch that were fetched and that the storage takes. *)
Fixpoint fetched_entries (h : Host) (rs : list Request)
  : list (Request * Response) :=
  match rs with
  | [] => []
  | r :: rs' =>
      match network h r with
      | Some res =>
          if ok res && storable h r res
          then (r, res) :: fetched_entries h rs'
          else fetched_entries h rs'
      | None => fetched_entries h rs'
      end
  end.

(** What a rejected batch has written: the host decides, entry by entry. *)
Definition written_on_failure (h : Host) (rs : list Request)
  : list (Request * Response) :=
  filter (fun kv => left_on_failure h (fst kv)) (fetched_entries h rs).

Section Worker.

(** [location.origin] of the worker and the directory of its script, against
    which the relative URLs of [ASSETS] resolve. *)
Variable location_origin : string.
Variable scope : string.

(** The path of ['./path'] below the directory it is resolved against. *)
Definition relative_path (s : string) : string :=
  if prefix "./" s then substring 2 (String.length s - 2) s else s.

(** Resolution of ['./path'] against the worker's directory. *)
Definition resolve_url (s : string) : URL :=
  {| origin := location_origin;
     pathname := scope ++ relative_path s;
     search := "" |}.

(** The request [cache.addAll] makes for a URL string. *)
Definition asset_request (s : string) : Request :=
  {| method := "GET"; url := resolve_url s; mode := "cors" |}.

Definition addAll (h : Host) (n : string) (items : list string) : Promise unit :=
  fun w =>
    let rs := map asset_request items in
    let w1 := fold_left (fun w r => emit (NetFetch r) w) rs
                (emit (CacheAddAll n rs) w) in
    match collect h rs with
    | Fulfilled l =>
        (Fulfilled tt,
         set_storage (storage_update (storage w1) n (fun c => put_all c l)) w1)
    | Rejected e =>
        (Rejected e,
         set_storage
           (storage_update (storage w1) n
              (fun c => put_all c (written_on_failure h rs))) w1)
    end.

Definition skipWaiting : Promise unit :=
  fun w => (Fulfilled tt, emit SkipWaiting w).

Definition clients_claim : Promise unit :=
  fun w => (Fulfilled tt, emit ClientsClaim w).

(** ** sw.js *)

Definition CACHE_NAME : string := "checkmate-gp-v1".

Definition ASSETS : list string :=
  [ "./";
    "./index.html";
    "./manifest.json";
    "./icons/icon-192.png";
    "./icons/icon-512.png";
    "./icons/apple-touch-icon.png" ].

(** Install: pre-cache core assets. The result is the promise handed to
    [e.waitUntil]. *)
Definition install (h : Host) : Promise unit :=
  cache <- caches_open CACHE_NAME ;;
  addAll h cache ASSETS ;;;
  skipWaiting.

(** Activate: clean up old caches. *)
Definition activate : Promise unit :=
  (keys <- caches_keys ;;
   promise_all
     (map (fun k => caches_delete k)
        (filter (fun k => negb (k =? CACHE_NAME)) keys))) ;;;
  clients_claim.

(** What the fetch listener does with the event: it returns without calling
    [e.respondWith] (the browser handles the request itself), or it calls
    [e.respondWith] with a promise that settles as given. *)
Inductive FetchResult :=
| PassThrough
| RespondWith (p : Settled (option Response)).

(** What the host makes of the event once the listener has run: the
    browser's own handling when the listener did not respond; a failed request
    for the page when the promise is rejected or is fulfilled with
    [undefined]; and, when the promise is fulfilled with a response, that
    response as the answer the host goes on with. The checks the host still
    makes on such an answer before the page has it (a redirected response to
    a navigation is refused) are not part of the listener and not modelled. *)
Inductive Delivery :=
| BrowserDefault
| Answered (v : Response)
| Failed.

Definition delivered (r : FetchResult) : Delivery :=
  match r with
  | PassThrough => BrowserDefault
  | RespondWith (Fulfilled (Some v)) => Answered v
  | RespondWith (Fulfilled None) => Failed
  | RespondWith (Rejected _) => Failed
  end.

Definition respondWith (p : Promise (option Response))
  : World -> FetchResult * World :=
  fun w => let (s, w') := p w in (RespondWith s, w').

(** The test of line 38. *)
Definition is_html (e : Request) : bool :=
  (mode e =? "navigate") || endsWith (pathname (url e)) ".html".

Definition on_fetch (h : Host) (e : Request) : World -> FetchResult * World :=
  fun w =>
    let url := url e in
    if negb (method e =? "GET") then (PassThrough, w)
    else if negb (origin url =? location_origin) then (PassThrough, w)
    else if is_html e then
      respondWith
        (catch
           (res <- fetch h e ;;
            let clone := clone res in
            and_later (caches_open CACHE_NAME)
              (fun cache => OpenPut cache e clone) ;;;
            resolve (Some res))
           (fun _ => caches_match e))
        w
    else
      respondWith
        (cached <- caches_match e ;;
         match cached with
         | Some c => resolve (Some c)
         | None =>
             res <- fetch h e ;;
             let clone := clone res in
             and_later (caches_open CACHE_NAME)
               (fun cache => OpenPut cache e clone) ;;;
             resolve (Some res)
         end)
        w.

(** ** Detached tasks *)

Definition run_task (h : Host) (t : Task) : World -> World :=
  fun w =>
    match t with
    | OpenPut n r v => snd (put h n r v w)
    end.

(** The tasks complete in the order given. Nothing orders two chains that
    were started independently, so every permutation of the pending tasks is
    an order in which they may complete. *)
Definition run_tasks (h : Host) (order : list Task) (w : World) : World :=
  fold_left (fun w t => run_task h t w) order
    {| storage := storage w; pending := []; log := log w |}.

(** One of these orders: the order in which the tasks were started. With a
    single task pending it is the only one. *)
Definition run_pending (h : Host) (w : World) : World :=
  run_tasks h (pending w) w.

(** The cache generation named by [CACHE_NAME]. *)
Definition current (cs : CacheStorage) : Cache :=
  match storage_get cs CACHE_NAME with
  | Some c => c
  | None => []
  end.

(** The request is fetched with an [ok] response that the storage takes. *)
Definition accepted (h : Host) (r : Request) : Prop :=
  exists res, network h r = Some res /\ ok res = true /\ storable h r res = true.

(** The requests of a batch have pairwise different keys. *)
Fixpoint distinct_requests (rs : list Request) : bool :=
  match rs with
  | [] => true
  | r :: rs' => negb (existsb (same_request r) rs') && distinct_requests rs'
  end.

(** The entries of a cache whose key is not the key of a request of [rs]. *)
Definition without (rs : list Request) (c : Cache) : Cache :=
  filter (fun kv => negb (existsb (same_request (fst kv)) rs)) c.

(** ** The two policies, as the design describes them *)

(** Network-first: the network is tried first; its response is returned, the
    current generation is opened and a copy is left to be stored in it; when
    the network fails the cached entry of the request, if any, is the
    result. *)
Definition network_first (h : Host) (e : Request) : Promise (option Response) :=
  fun w =>
    match network h e with
    | Some res =>
        (Fulfilled (Some res),
         {| storage := storage_open (storage w) CACHE_NAME;
            pending := pending w ++ [OpenPut CACHE_NAME e res];
            log := log w ++ [NetFetch e; CachesOpen CACHE_NAME] |})
    | None =>
        (Fulfilled (storage_match (storage w) e),
         {| storage := storage w;
            pending := pending w;
            log := log w ++ [NetFetch e; CachesMatch e] |})
    end.

(** Cache-first: the cache is looked up first and a hit is returned with no
    network activity; on a miss the network is tried, its response returned,
    the current generation opened and a copy left to be stored in it, and
    its failure is the failure of the request. *)
Definition cache_first (h : Host) (e : Request) : Promise (option Response) :=
  fun w =>
    match storage_match (storage w) e with
    | Some c =>
        (Fulfilled (Some c),
         {| storage := storage w;
            pending := pending w;
            log := log w ++ [CachesMatch e] |})
    | None =>
        match network h e with
        | Some res =>
            (Fulfilled (Some res),
             {| storage := storage_open (storage w) CACHE_NAME;
                pending := pending w ++ [OpenPut CACHE_NAME e res];
                log := log w ++ [CachesMatch e; NetFetch e;
                                 CachesOpen CACHE_NAME] |})
        | None =>
            (Rejected NetworkError,
             {| storage := storage w;
                pending := pending w;
                log := log w ++ [CachesMatch e; NetFetch e] |})
        end
    end.

(** ** Request classes, as the design describes them *)

Definition ends_with (s t : string) : Prop := exists p, s = (p ++ t)%string.

(** Same-origin GET requests: the ones the listener answers. *)
Definition intercepted (e : Request) : Prop :=
  method e = "GET" /\ origin (url e) = location_origin.

Definition navigation_class (e : Request) : Prop :=
  intercepted e /\
  (mode e = "navigate" \/ ends_with (pathname (url e)) ".html").

Definition static_class (e : Request) : Prop :=
  intercepted e /\
  ~ (mode e = "navigate" \/ ends_with (pathname (url e)) ".html").

(** [n] identical fetch events handled one after the other. *)
Fixpoint repeat_fetch (h : Host) (e : Request) (n : nat) (w : World) : World :=
  match n with
  | O => w
  | S n' => repeat_fetch h e n' (snd (on_fetch h e w))
  end.

(** ** Sample data *)

Definition sample_origin : string := "https://checkmate.example".

Definition sample_scope : string := "/gp/".

Definition online : Host :=
  {| network := fun r => Some {| status := 200; body := pathname (url r) |};
     storable := fun _ _ => true;
     left_on_failure := fun _ => false |}.

Definition offline : Host :=
  {| network := fun _ => None; storable := fun _ _ => true;
     left_on_failure := fun _ => false |}.

Definition not_found : Response := {| status := 404; body := "Not Found" |}.

(** A server that answers every request with 404. *)
Definition missing : Host :=
  {| network := fun _ => Some not_found; storable := fun _ _ => true;
     left_on_failure := fun _ => false |}.

Definition page_request : Request :=
  {| method := "GET";
     url := {| origin := sample_origin; pathname := "/gp/index.html"; search := "" |};
     mode := "navigate" |}.

Definition icon_request : Request :=
  {| method := "GET";
     url := {| origin := sample_origin; pathname := "/gp/icons/icon-192.png";
               search := "" |};
     mode := "no-cors" |}.

Definition api_request : Request :=
  {| method := "POST";
     url := {| origin := "https://api.openai.com"; pathname := "/v1/chat/completions";
               search := "" |};
     mode := "cors" |}.

Definition old_icon : Response := {| status := 200; body := "icon of v0" |}.

Definition empty_world : World :=
  {| storage := []; pending := []; log := [] |}.

(** Generations v0 and v1, the icon cached in v0 only. *)
Definition two_generations : World :=
  {| storage := [("checkmate-gp-v0", [(icon_request, old_icon)]);
                 ("checkmate-gp-v1", [])];
     pending := [];
     log := [] |}.

(** ** Well-formed storage *)

(** Generation names are unique and, within a generation, so are the keys. *)
Definition storage_wf (cs : CacheStorage) : Prop :=
  NoDup (storage_keys cs) /\
  forall n c, In (n, c) cs -> NoDup (cache_keys c).

(** ** More sample data *)


(** A host that does not undo a failed batch, and a network on which the last
    asset of the manifest cannot be fetched. *)
Definition half_written : Host :=
  {| network := fun r =>
       if endsWith (pathname (url r)) "apple-touch-icon.png" then None
       else Some {| status := 200; body := pathname (url r) |};
     storable := fun _ _ => true;
     left_on_failure := fun _ => true |}.

Definition old_page : Response := {| status := 200; body := "page of v0" |}.

Definition new_page : Response := {| status := 200; body := "/gp/index.html" |}.

(** A server that answers with version 2 of every file. *)
Definition online_v2 : Host :=
  {| network := fun r => Some {| status := 200; body := "v2" |};
     storable := fun _ _ => true;
     left_on_failure := fun _ => false |}.

(** Generations v0 and v1, the page cached in v0 only. *)
Definition stale_page : World :=
  {| storage := [("checkmate-gp-v0", [(page_request, old_page)]);
                 ("checkmate-gp-v1", [])];
     pending := [];
     log := [] |}.

(** ** Strings, keys and caches *)

Lemma clone_id (res : Response) : clone res = res.
Proof. destruct res; reflexivity. Qed.

Lemma url_eqb_eq (a b : URL) : url_eqb a b = true <-> a = b.
Proof.
  unfold url_eqb. rewrite !andb_true_iff, !String.eqb_eq.
  destruct a, b; simpl. split.
  - intros [[-> ->] ->]. reflexivity.
  - intros H. injection H as -> -> ->. auto.
Qed.

Lemma same_request_key (a b : Request) :
  same_request a b = true <-> request_key a = request_key b.
Proof.
  unfold same_request, request_key.
  rewrite andb_true_iff, String.eqb_eq, url_eqb_eq.
  split.
  - intros [-> ->]. reflexivity.
  - intros H. injection H as -> ->. auto.
Qed.

Lemma same_request_refl (a : Request) : same_request a a = true.
Proof. apply same_request_key. reflexivity. Qed.

Lemma same_request_sym (a b : Request) : same_request a b = same_request b a.
Proof.
  destruct (same_request a b) eqn:E, (same_request b a) eqn:F; try reflexivity.
  - apply same_request_key in E. symmetry in E. apply same_request_key in E.
    congruence.
  - apply same_request_key in F. symmetry in F. apply same_request_key in F.
    congruence.
Qed.

(** Requests with the same key are matched by the same entries. *)
Lemma same_request_subst (a b k : Request) :
  same_request a b = true -> same_request a k = same_request b k.
Proof.
  intros E. apply same_request_key in E.
  destruct (same_request a k) eqn:Ea, (same_request b k) eqn:Eb; try reflexivity.
  - apply same_request_key in Ea. rewrite E in Ea.
    apply same_request_key in Ea. congruence.
  - apply same_request_key in Eb. rewrite <- E in Eb.
    apply same_request_key in Eb. congruence.
Qed.

Lemma cache_match_app (c1 c2 : Cache) (k : Request) :
  cache_match (c1 ++ c2) k =
  match cache_match c1 k with
  | Some v => Some v
  | None => cache_match c2 k
  end.
Proof.
  induction c1 as [|[k' v'] c1 IH]; simpl; [reflexivity|].
  destruct (same_request k' k); auto.
Qed.

Lemma cache_match_delete (c : Cache) (r k : Request) :
  cache_match (cache_delete c r) k =
  if same_request r k then None else cache_match c k.
Proof.
  unfold cache_delete.
  induction c as [|[k' v'] c IH]; simpl.
  - destruct (same_request r k); reflexivity.
  - destruct (same_request k' r) eqn:E; simpl.
    + rewrite IH. rewrite (same_request_subst _ _ k E).
      destruct (same_request r k); reflexivity.
    + rewrite IH. destruct (same_request r k) eqn:F.
      * rewrite same_request_sym in F.
        rewrite (same_request_sym k' k).
        rewrite (same_request_subst _ _ k' F).
        rewrite same_request_sym, E. reflexivity.
      * reflexivity.
Qed.

(** Read after write on one cache. *)
Lemma cache_match_put (c : Cache) (r k : Request) (v : Response) :
  cache_match (cache_put c r v) k =
  if same_request r k then Some v else cache_match c k.
Proof.
  unfold cache_put. rewrite cache_match_app, cache_match_delete. simpl.
  destruct (same_request r k); [reflexivity|].
  destruct (cache_match c k); reflexivity.
Qed.

(** ** Named caches *)

Lemma storage_has_In (cs : CacheStorage) (n : string) :
  storage_has cs n = true <-> In n (storage_keys cs).
Proof.
  unfold storage_has, storage_keys. rewrite existsb_exists, in_map_iff.
  split; intros [[m c] [H1 H2]]; exists (m, c); simpl in *.
  - apply String.eqb_eq in H2. auto.
  - split; [assumption|]. subst. apply String.eqb_refl.
Qed.

Lemma storage_has_get (cs : CacheStorage) (n : string) :
  storage_has cs n = true -> exists c, storage_get cs n = Some c.
Proof.
  induction cs as [|[m c] cs IH]; simpl; [discriminate|].
  destruct (m =? n); simpl; eauto.
Qed.

Lemma storage_has_open (cs : CacheStorage) (n : string) :
  storage_has (storage_open cs n) n = true.
Proof.
  unfold storage_open. destruct (storage_has cs n) eqn:E; [assumption|].
  unfold storage_has. rewrite existsb_app. simpl.
  rewrite String.eqb_refl. apply orb_true_r.
Qed.

Lemma storage_get_update (cs : CacheStorage) (n m : string) (f : Cache -> Cache) :
  storage_get (storage_update cs n f) m =
  if m =? n then option_map f (storage_get cs n) else storage_get cs m.
Proof.
  induction cs as [|[k c] cs IH]; simpl.
  - destruct (m =? n); reflexivity.
  - destruct (k =? n) eqn:E; simpl.
    + apply String.eqb_eq in E. subst k.
      rewrite (String.eqb_sym n m). destruct (m =? n); reflexivity.
    + rewrite IH. destruct (k =? m) eqn:F; [|reflexivity].
      apply String.eqb_eq in F. subst k. rewrite E. reflexivity.
Qed.

Lemma storage_keys_update (cs : CacheStorage) (n : string) (f : Cache -> Cache) :
  storage_keys (storage_update cs n f) = storage_keys cs.
Proof.
  unfold storage_keys.
  induction cs as [|[k c] cs IH]; simpl; [reflexivity|].
  destruct (k =? n); simpl; congruence.
Qed.

Lemma storage_has_false_get (cs : CacheStorage) (n : string) :
  storage_has cs n = false -> storage_get cs n = None.
Proof.
  induction cs as [|[m c] cs IH]; simpl; [reflexivity|].
  destruct (m =? n); simpl; [discriminate | assumption].
Qed.

Lemma storage_get_app_new (cs : CacheStorage) (n : string) :
  storage_has cs n = false -> storage_get (cs ++ [(n, [])]) n = Some [].
Proof.
  induction cs as [|[m c] cs IH]; simpl.
  - rewrite String.eqb_refl. reflexivity.
  - destruct (m =? n); simpl; [discriminate | assumption].
Qed.

Lemma storage_get_open (cs : CacheStorage) (n m : string) :
  m <> n -> storage_get (storage_open cs n) m = storage_get cs m.
Proof.
  intros Hne. unfold storage_open. destruct (storage_has cs n); [reflexivity|].
  induction cs as [|[k c] cs IH]; simpl.
  - apply not_eq_sym, String.eqb_neq in Hne. rewrite Hne. reflexivity.
  - destruct (k =? m); auto.
Qed.

Lemma entry_current (cs : CacheStorage) (r : Request) :
  entry cs CACHE_NAME r = cache_match (current cs) r.
Proof.
  unfold entry, current. destruct (storage_get cs CACHE_NAME); reflexivity.
Qed.

(** Opening a generation changes no entry of any generation. *)
Lemma entry_open (cs : CacheStorage) (m n : string) (r : Request) :
  entry (storage_open cs m) n r = entry cs n r.
Proof.
  unfold entry, storage_open.
  destruct (storage_has cs m) eqn:E; [reflexivity|].
  destruct (String.eqb_spec n m) as [->|Hne].
  - rewrite (storage_get_app_new _ _ E), (storage_has_false_get _ _ E).
    reflexivity.
  - pose proof (storage_get_open cs Hne) as G. unfold storage_open in G.
    rewrite E in G. rewrite G. reflexivity.
Qed.

(** Deleting a list of generations one after the other. *)
Lemma fold_storage_delete (ns : list string) (cs : CacheStorage) :
  fold_left storage_delete ns cs =
  filter (fun nc => negb (existsb (String.eqb (fst nc)) ns)) cs.
Proof.
  revert cs. induction ns as [|n ns IH]; intros cs; simpl.
  - symmetry. apply forallb_filter_id. apply forallb_forall. reflexivity.
  - rewrite IH. unfold storage_delete.
    induction cs as [|[m c] cs IHcs]; simpl; [reflexivity|].
    destruct (m =? n); simpl; [assumption|].
    destruct (existsb (String.eqb m) ns); simpl; congruence.
Qed.

Lemma promise_all_delete (ns : list string) (w : World) :
  exists l,
    promise_all (map (fun k => caches_delete k) ns) w =
    (Fulfilled l,
     {| storage := fold_left storage_delete ns (storage w);
        pending := pending w;
        log := log w ++ map CachesDelete ns |}).
Proof.
  revert w. induction ns as [|n ns IH]; intros w; simpl.
  - exists []. unfold resolve. rewrite app_nil_r. destruct w; reflexivity.
  - unfold and_then at 1. simpl.
    destruct (IH (emit (CachesDelete n)
                   (set_storage (storage_delete (storage w) n) w))) as [l Hl].
    unfold and_then. rewrite Hl. simpl.
    eexists. unfold resolve. rewrite <- app_assoc. reflexivity.
Qed.

(** The stale names are exactly the names other than [CACHE_NAME]. *)
Lemma stale_filter (cs : CacheStorage) :
  filter (fun nc => negb (existsb (String.eqb (fst nc))
                            (filter (fun k => negb (k =? CACHE_NAME))
                               (storage_keys cs)))) cs =
  filter (fun nc => fst nc =? CACHE_NAME) cs.
Proof.
  apply filter_ext_in. intros [m c] Hin. simpl.
  destruct (m =? CACHE_NAME) eqn:E.
  - apply negb_true_iff. apply not_true_is_false. intros H.
    apply existsb_exists in H. destruct H as [k [Hk Hm]].
    apply filter_In in Hk. destruct Hk as [_ Hk].
    apply String.eqb_eq in Hm. subst k. rewrite E in Hk. discriminate.
  - apply negb_false_iff. apply existsb_exists. exists m. split.
    + apply filter_In. split.
      * unfold storage_keys. apply in_map_iff. exists (m, c). auto.
      * rewrite E. reflexivity.
    + apply String.eqb_refl.
Qed.

Lemma activate_run (w : World) :
  activate w =
  (Fulfilled tt,
   {| storage := filter (fun nc => fst nc =? CACHE_NAME) (storage w);
      pending := pending w;
      log := log w ++ CachesKeys ::
               map CachesDelete
                 (filter (fun k => negb (k =? CACHE_NAME)) (storage_keys (storage w)))
               ++ [ClientsClaim] |}).
Proof.
  unfold activate, and_then, caches_keys, clients_claim.
  destruct (promise_all_delete
              (filter (fun k => negb (k =? CACHE_NAME)) (storage_keys (storage w)))
              (emit CachesKeys w)) as [l Hl].
  rewrite Hl. unfold emit; simpl.
  rewrite fold_storage_delete, stale_filter.
  rewrite <- !app_assoc. reflexivity.
Qed.

(** ** Activate *)

(** C3. The activate handler settles successfully and deletes exactly the
    stale generations: what is left of the storage are the generations named
    [CACHE_NAME], untouched; a generation that existed beforehand is gone
    afterwards if and only if its name differs from [CACHE_NAME]; and from
    the generations v0, v1 (any stale name and the current one) only v1 is
    left. *)
Theorem activate_deletes_exactly_stale (w : World) :
  fst (activate w) = Fulfilled tt /\
  storage (snd (activate w)) =
    filter (fun nc => fst nc =? CACHE_NAME) (storage w) /\
  (forall n, In n (storage_keys (storage w)) ->
     (~ In n (storage_keys (storage (snd (activate w)))) <-> n <> CACHE_NAME)) /\
  (forall v0, v0 <> CACHE_NAME ->
     storage_keys (storage w) = [v0; CACHE_NAME] ->
     storage_keys (storage (snd (activate w))) = [CACHE_NAME]).
Proof.
  rewrite activate_run. simpl.
  split; [reflexivity|]. split; [reflexivity|]. split.
  - intros n Hn. unfold storage_keys in *.
    rewrite in_map_iff. split.
    + intros Hnot ->. apply Hnot.
      apply in_map_iff in Hn. destruct Hn as [[m c] [Hm Hin]]. simpl in Hm.
      exists (m, c). split; [assumption|].
      apply filter_In. split; [assumption|]. simpl. subst m. reflexivity.
    + intros Hne [[m c] [Hm Hin]]. simpl in Hm. subst m.
      apply filter_In in Hin. destruct Hin as [_ Hin]. simpl in Hin.
      apply String.eqb_eq in Hin. contradiction.
  - intros v0 Hne Hkeys. unfold storage_keys in *.
    destruct (storage w) as [|[a ca] [|[b cb] [|x l]]]; simpl in Hkeys;
      try discriminate.
    injection Hkeys as -> ->. simpl.
    apply String.eqb_neq in Hne. rewrite Hne. reflexivity.
Qed.

(** ** The path test *)

Lemma substring_all (s : string) : substring 0 (String.length s) s = s.
Proof. induction s as [|a s IH]; simpl; congruence. Qed.

Lemma substring_split (n : nat) (s : string) :
  n <= String.length s ->
  s = (substring 0 n s ++ substring n (String.length s - n) s)%string.
Proof.
  revert s. induction n as [|n IH]; intros s Hn.
  - rewrite Nat.sub_0_r, substring_all. destruct s; reflexivity.
  - destruct s as [|a s]; simpl in *; [lia|].
    f_equal. apply IH. lia.
Qed.

Lemma substring_suffix (p t : string) :
  substring (String.length p) (String.length t) (p ++ t) = t.
Proof. induction p as [|a p IH]; simpl; [apply substring_all | assumption]. Qed.

Lemma length_append (p t : string) :
  String.length (p ++ t) = String.length p + String.length t.
Proof. induction p as [|a p IH]; simpl; congruence. Qed.

(** [endsWith] decides "ends with". *)
Lemma endsWith_spec (s t : string) : endsWith s t = true <-> ends_with s t.
Proof.
  unfold endsWith, ends_with. rewrite andb_true_iff, Nat.leb_le, String.eqb_eq.
  split.
  - intros [Hle Hsub].
    exists (substring 0 (String.length s - String.length t) s).
    assert (Hn : String.length s - String.length t <= String.length s) by lia.
    pose proof (substring_split s Hn) as E.
    replace (String.length s - (String.length s - String.length t))
      with (String.length t) in E by lia.
    rewrite Hsub in E. exact E.
  - intros [p ->]. rewrite length_append. split; [lia|].
    replace (String.length p + String.length t - String.length t)
      with (String.length p) by lia.
    apply substring_suffix.
Qed.

Lemma is_html_spec (e : Request) :
  is_html e = true <->
  (mode e = "navigate" \/ ends_with (pathname (url e)) ".html").
Proof.
  unfold is_html. rewrite orb_true_iff, String.eqb_eq, endsWith_spec.
  reflexivity.
Qed.

(** ** The fetch listener, branch by branch *)

Lemma on_fetch_bypass (h : Host) (e : Request) (w : World) :
  method e <> "GET" \/ origin (url e) <> location_origin ->
  on_fetch h e w = (PassThrough, w).
Proof.
  intros H. unfold on_fetch.
  destruct (method e =? "GET") eqn:Em; simpl; [|reflexivity].
  destruct (origin (url e) =? location_origin) eqn:Eo; simpl; [|reflexivity].
  apply String.eqb_eq in Em, Eo. tauto.
Qed.

Lemma on_fetch_html (h : Host) (e : Request) (w : World) :
  intercepted e -> is_html e = true ->
  on_fetch h e w = respondWith (network_first h e) w.
Proof.
  intros [Hm Ho] Hh. unfold on_fetch.
  apply String.eqb_eq in Hm, Ho. rewrite Hm, Ho, Hh. simpl.
  unfold respondWith, catch, and_then, fetch, network_first, and_later,
    caches_open, resolve, caches_match.
  destruct (network h e) as [res|]; simpl.
  - rewrite clone_id. unfold detach, emit, set_storage; simpl.
    rewrite <- app_assoc. reflexivity.
  - unfold emit; simpl. rewrite <- app_assoc. reflexivity.
Qed.

Lemma on_fetch_static (h : Host) (e : Request) (w : World) :
  intercepted e -> is_html e = false ->
  on_fetch h e w = respondWith (cache_first h e) w.
Proof.
  intros [Hm Ho] Hh. unfold on_fetch.
  apply String.eqb_eq in Hm, Ho. rewrite Hm, Ho, Hh. simpl.
  unfold respondWith, and_then, fetch, cache_first, and_later, caches_open,
    resolve, caches_match.
  simpl.
  destruct (storage_match (storage w) e) as [c|]; simpl; [reflexivity|].
  destruct (network h e) as [res|]; simpl.
  - rewrite clone_id. unfold detach, emit, set_storage; simpl.
    rewrite <- !app_assoc. reflexivity.
  - unfold emit; simpl. rewrite <- app_assoc. reflexivity.
Qed.

Lemma navigation_class_html (e : Request) :
  navigation_class e <-> intercepted e /\ is_html e = true.
Proof. unfold navigation_class. rewrite is_html_spec. reflexivity. Qed.

Lemma static_class_html (e : Request) :
  static_class e <-> intercepted e /\ is_html e = false.
Proof.
  unfold static_class. rewrite <- is_html_spec.
  destruct (is_html e); intuition congruence.
Qed.

(** The two policies start with different calls. *)
Lemma policies_differ (h : Host) (e : Request) (w : World) :
  respondWith (network_first h e) w <> respondWith (cache_first h e) w.
Proof.
  unfold respondWith, network_first, cache_first. intros H.
  assert (L : exists l1 l2,
             log w ++ NetFetch e :: l1 = log w ++ CachesMatch e :: l2).
  { apply (f_equal (fun p => log (snd p))) in H.
    destruct (network h e), (storage_match (storage w) e); simpl in H; eauto. }
  destruct L as [l1 [l2 L]]. apply app_inv_head in L. discriminate.
Qed.

(** ** Fetch: bypass and classification *)

(** C4. A request whose method is not GET, or whose origin is not the
    worker's own, is not intercepted: the listener returns without responding
    (the browser handles the request itself) and leaves the world as it was,
    with no cache read, no cache write, no network call and no task started. *)
Theorem bypass_untouched (h : Host) (e : Request) (w : World) :
  method e <> "GET" \/ origin (url e) <> location_origin ->
  on_fetch h e w = (PassThrough, w) /\
  delivered (fst (on_fetch h e w)) = BrowserDefault.
Proof.
  intros H. rewrite (on_fetch_bypass h e w H). split; reflexivity.
Qed.

(** C5. An intercepted (same-origin GET) request is handled by exactly one of
    the two policies: network-first if and only if its mode is ['navigate'] or
    its path ends with ['.html'], and cache-first if and only if not. *)
Theorem classification (h : Host) (e : Request) (w : World) :
  intercepted e ->
  ((mode e = "navigate" \/ ends_with (pathname (url e)) ".html") <->
   on_fetch h e w = respondWith (network_first h e) w) /\
  (~ (mode e = "navigate" \/ ends_with (pathname (url e)) ".html") <->
   on_fetch h e w = respondWith (cache_first h e) w) /\
  (on_fetch h e w = respondWith (network_first h e) w \/
   on_fetch h e w = respondWith (cache_first h e) w).
Proof.
  intros Hi. rewrite <- is_html_spec.
  destruct (is_html e) eqn:Hh.
  - rewrite (on_fetch_html h w Hi Hh).
    pose proof (policies_differ h e w) as D.
    repeat split; auto; intros; try congruence; contradiction.
  - rewrite (on_fetch_static h w Hi Hh).
    pose proof (policies_differ h e w) as D.
    repeat split; auto; intros; try congruence.
Qed.

(** The answer of the listener depends on what the lookup of its request
    finds, not on what else is stored, logged or started. *)
Lemma on_fetch_result_lookup (h : Host) (e : Request) (w1 w2 : World) :
  storage_match (storage w1) e = storage_match (storage w2) e ->
  fst (on_fetch h e w1) = fst (on_fetch h e w2).
Proof.
  intros Hs. unfold on_fetch.
  destruct (negb (method e =? "GET")); [reflexivity|].
  destruct (negb (origin (url e) =? location_origin)); [reflexivity|].
  unfold respondWith, catch, and_then, fetch, caches_match, and_later,
    caches_open, resolve.
  destruct (is_html e); simpl.
  - destruct (network h e); simpl; rewrite ?Hs; reflexivity.
  - rewrite Hs. destruct (storage_match (storage w2) e); simpl; [reflexivity|].
    destruct (network h e); reflexivity.
Qed.

Lemma cache_hit (h : Host) (e : Request) (w : World) (c : Response) :
  static_class e -> storage_match (storage w) e = Some c ->
  on_fetch h e w = (RespondWith (Fulfilled (Some c)), emit (CachesMatch e) w).
Proof.
  intros Hc Hm. apply static_class_html in Hc. destruct Hc as [Hi Hh].
  rewrite (on_fetch_static h w Hi Hh).
  unfold respondWith, cache_first. rewrite Hm. reflexivity.
Qed.

(** ** Fetch: cache-first hits *)

(** C6. A static-asset request whose key has a cached entry is answered with
    that entry and the only call made is the cache lookup: no network call, no
    cache write, no task started. Any number of identical requests handled one
    after the other leave the storage unchanged, make no network call, and
    are each answered with the same entry, whatever the state of the
    network. *)
Theorem cache_hit_no_network (h : Host) (e : Request) (w : World) (c : Response) :
  static_class e ->
  storage_match (storage w) e = Some c ->
  on_fetch h e w =
    (RespondWith (Fulfilled (Some c)),
     {| storage := storage w; pending := pending w;
        log := log w ++ [CachesMatch e] |}) /\
  forall (n : nat) (h' : Host),
    storage (repeat_fetch h e n w) = storage w /\
    pending (repeat_fetch h e n w) = pending w /\
    log (repeat_fetch h e n w) = log w ++ repeat (CachesMatch e) n /\
    fst (on_fetch h' e (repeat_fetch h e n w)) = RespondWith (Fulfilled (Some c)).
Proof.
  intros Hc Hm. split.
  - rewrite (cache_hit h w Hc Hm). reflexivity.
  - intros n. revert w Hm. induction n as [|n IH]; intros w Hm h'; simpl.
    + rewrite app_nil_r. rewrite (cache_hit h' w Hc Hm). auto.
    + rewrite (cache_hit h w Hc Hm). simpl.
      destruct (IH (emit (CachesMatch e) w) Hm h') as [Hs [Hp [Hl Hr]]].
      simpl in *. rewrite Hs, Hp, Hl, Hr, <- app_assoc. auto.
Qed.

(** ** Fetch: no network and no cached entry *)

(** C2. With the network failing and no cached entry for the request, an
    intercepted request of either class gets no response and fails for the
    page that issued it; the listener makes one network call and one cache
    lookup, with no retry and no substitute response. For the static-asset
    class the promise handed to [respondWith] is rejected with the failure of
    the network call; for the navigation class the failure is caught by the
    cache fallback and the promise is fulfilled with [undefined], which the
    host reports to the page as a failed request. *)
Theorem total_unavailability (h : Host) (e : Request) (w : World) :
  intercepted e ->
  network h e = None ->
  storage_match (storage w) e = None ->
  delivered (fst (on_fetch h e w)) = Failed /\
  (forall v, fst (on_fetch h e w) <> RespondWith (Fulfilled (Some v))) /\
  (static_class e ->
   on_fetch h e w =
     (RespondWith (Rejected NetworkError),
      {| storage := storage w; pending := pending w;
         log := log w ++ [CachesMatch e; NetFetch e] |})) /\
  (navigation_class e ->
   on_fetch h e w =
     (RespondWith (Fulfilled None),
      {| storage := storage w; pending := pending w;
         log := log w ++ [NetFetch e; CachesMatch e] |})).
Proof.
  intros Hi Hn Hm.
  assert (S : is_html e = false ->
              on_fetch h e w =
              (RespondWith (Rejected NetworkError),
               {| storage := storage w; pending := pending w;
                  log := log w ++ [CachesMatch e; NetFetch e] |})).
  { intros Hh. rewrite (on_fetch_static h w Hi Hh).
    unfold respondWith, cache_first. rewrite Hm, Hn. reflexivity. }
  assert (N : is_html e = true ->
              on_fetch h e w =
              (RespondWith (Fulfilled None),
               {| storage := storage w; pending := pending w;
                  log := log w ++ [NetFetch e; CachesMatch e] |})).
  { intros Hh. rewrite (on_fetch_html h w Hi Hh).
    unfold respondWith, network_first. rewrite Hm, Hn. reflexivity. }
  repeat split.
  - destruct (is_html e); [rewrite N | rewrite S]; reflexivity.
  - intros v. destruct (is_html e); [rewrite N | rewrite S];
      simpl; congruence.
  - intros Hc. apply static_class_html in Hc. apply S, Hc.
  - intros Hc. apply navigation_class_html in Hc. apply N, Hc.
Qed.

(** ** The detached cache write *)

Lemma storage_get_In (cs : CacheStorage) (n : string) (c : Cache) :
  storage_get cs n = Some c -> In (n, c) cs.
Proof.
  induction cs as [|[m c'] cs IH]; simpl; [discriminate|].
  destruct (m =? n) eqn:E.
  - apply String.eqb_eq in E. intros H. injection H as ->. subst. auto.
  - auto.
Qed.

Lemma storage_match_app (cs1 cs2 : CacheStorage) (r : Request) :
  storage_match (cs1 ++ cs2) r =
  match storage_match cs1 r with
  | Some v => Some v
  | None => storage_match cs2 r
  end.
Proof.
  induction cs1 as [|[m c] cs1 IH]; simpl; [reflexivity|].
  destruct (cache_match c r); auto.
Qed.

Lemma storage_match_none (cs : CacheStorage) (r : Request) :
  storage_match cs r = None <->
  forall m c, In (m, c) cs -> cache_match c r = None.
Proof.
  induction cs as [|[k c] cs IH]; simpl.
  - split; [intros _ m c [] | reflexivity].
  - destruct (cache_match c r) eqn:E.
    + split; [discriminate|]. intros H. rewrite <- E. apply (H k c). auto.
    + rewrite IH. split.
      * intros H m c' [Heq|Hin]; [injection Heq as <- <-; assumption | eauto].
      * intros H m c' Hin. apply (H m c'). auto.
Qed.

Lemma storage_match_open (cs : CacheStorage) (n : string) (r : Request) :
  storage_match (storage_open cs n) r = storage_match cs r.
Proof.
  unfold storage_open. destruct (storage_has cs n); [reflexivity|].
  rewrite storage_match_app. simpl. destruct (storage_match cs r); reflexivity.
Qed.

(** A write into the first generation named [n] is what the storage-wide
    lookup finds, when no generation had a match before. *)
Lemma storage_match_put (cs : CacheStorage) (n : string) (r : Request)
    (v : Response) :
  storage_has cs n = true ->
  storage_match cs r = None ->
  storage_match (storage_update cs n (fun c => cache_put c r v)) r = Some v.
Proof.
  induction cs as [|[m c] cs IH]; simpl; [discriminate|].
  destruct (cache_match c r) eqn:E; [discriminate|].
  intros Hh Hm. destruct (m =? n) eqn:F; simpl.
  - rewrite cache_match_put, same_request_refl. reflexivity.
  - rewrite E. auto.
Qed.

Lemma entry_put (cs : CacheStorage) (n : string) (r : Request) (v : Response) :
  entry (storage_update (storage_open cs n) n (fun c => cache_put c r v)) n r
  = Some v.
Proof.
  unfold entry. rewrite storage_get_update, String.eqb_refl.
  destruct (storage_has_get _ _ (storage_has_open cs n)) as [c Hc].
  rewrite Hc. simpl. rewrite cache_match_put, same_request_refl. reflexivity.
Qed.

(** The one task a response leaves behind, run on its own. *)
Lemma run_single_task (h : Host) (w : World) (n : string) (r : Request)
    (v : Response) :
  pending w = [OpenPut n r v] ->
  storable h r v = true ->
  storage (run_pending h w) =
  storage_update (storage w) n (fun c => cache_put c r v).
Proof.
  intros Hp Hs. unfold run_pending, run_tasks. rewrite Hp. simpl.
  unfold put. simpl. rewrite Hs. reflexivity.
Qed.

Lemma fetched (h : Host) (e : Request) (w : World) (res : Response) :
  intercepted e ->
  network h e = Some res ->
  navigation_class e \/ storage_match (storage w) e = None ->
  on_fetch h e w =
  (RespondWith (Fulfilled (Some res)),
   {| storage := storage_open (storage w) CACHE_NAME;
      pending := pending w ++ [OpenPut CACHE_NAME e (clone res)];
      log := log w ++ (if is_html e
                       then [NetFetch e; CachesOpen CACHE_NAME]
                       else [CachesMatch e; NetFetch e;
                             CachesOpen CACHE_NAME]) |}).
Proof.
  intros Hi Hn Hc. rewrite clone_id. destruct (is_html e) eqn:Hh.
  - rewrite (on_fetch_html h w Hi Hh).
    unfold respondWith, network_first. rewrite Hn. reflexivity.
  - rewrite (on_fetch_static h w Hi Hh).
    destruct Hc as [Hc|Hc].
    + apply navigation_class_html in Hc. destruct Hc. congruence.
    + unfold respondWith, cache_first. rewrite Hc, Hn. reflexivity.
Qed.

(** ** Fetch: response first, cache write later *)

(** C7. When the network call of the listener succeeds (navigation class, or
    static class on a cache miss), the promise handed to [respondWith] is
    fulfilled with the network response while nothing has been written: the
    listener has opened [CACHE_NAME], every entry of every generation and
    every lookup is what it was, no [put] has been made, and the write of the
    copy into [CACHE_NAME] is a task started and not awaited. A request
    handled right after, before that task has run, is answered exactly as if
    the first had not happened (it does not see the new entry), whereas once
    the task has run the entry is in [CACHE_NAME]. *)
Theorem response_before_cache_write (h : Host) (e : Request) (w : World)
    (res : Response) :
  intercepted e ->
  network h e = Some res ->
  navigation_class e \/ storage_match (storage w) e = None ->
  fst (on_fetch h e w) = RespondWith (Fulfilled (Some res)) /\
  storage (snd (on_fetch h e w)) = storage_open (storage w) CACHE_NAME /\
  (forall n r, entry (storage (snd (on_fetch h e w))) n r
               = entry (storage w) n r) /\
  (forall r, storage_match (storage (snd (on_fetch h e w))) r
             = storage_match (storage w) r) /\
  pending (snd (on_fetch h e w)) =
    pending w ++ [OpenPut CACHE_NAME e (clone res)] /\
  (forall n r v, In (CachePut n r v) (log (snd (on_fetch h e w))) ->
                 In (CachePut n r v) (log w)) /\
  (forall h2 e2,
     fst (on_fetch h2 e2 (snd (on_fetch h e w))) = fst (on_fetch h2 e2 w)) /\
  (pending w = [] -> storable h e (clone res) = true ->
   entry (storage (run_pending h (snd (on_fetch h e w)))) CACHE_NAME e
   = Some res).
Proof.
  intros Hi Hn Hc. rewrite (fetched h w Hi Hn Hc). cbn [fst snd storage pending log].
  split; [reflexivity|]. split; [reflexivity|].
  split; [intros n r; apply entry_open|].
  split; [intros r; apply storage_match_open|].
  split; [reflexivity|]. split; [|split].
  - intros n r v Hin. apply in_app_or in Hin. destruct Hin as [Hin|Hin]; auto.
    destruct (is_html e); simpl in Hin; intuition discriminate.
  - intros h2 e2. apply on_fetch_result_lookup. apply storage_match_open.
  - intros Hp Hs. erewrite run_single_task; cbn [storage pending]; eauto.
    + rewrite entry_put. apply f_equal, clone_id.
    + rewrite Hp. reflexivity.
Qed.

(** ** Fetch: lookups span every generation *)

(** C9. The cache lookups of the listener search every generation while its
    writes go to [CACHE_NAME] only: every task the listener starts is a put
    into [CACHE_NAME] and running it leaves every other generation as it was;
    and when the entry of a request exists only in a stale generation (one
    named differently, not yet deleted), so that [CACHE_NAME] has no entry for
    it, that stale entry is what the listener answers with, both on the
    cache-first lookup and on the fallback of a failed navigation. *)
Theorem lookup_spans_generations (h : Host) (e : Request) (w : World) :
  (forall t, In t (pending (snd (on_fetch h e w))) ->
     In t (pending w) \/ exists v, t = OpenPut CACHE_NAME e v) /\
  (forall v m, m <> CACHE_NAME ->
     storage_get (storage (run_task h (OpenPut CACHE_NAME e v) w)) m
     = storage_get (storage w) m) /\
  (forall cs1 n c cs2 v,
     intercepted e ->
     n <> CACHE_NAME ->
     storage w = cs1 ++ (n, c) :: cs2 ->
     cache_match c e = Some v ->
     (forall m c', In (m, c') (cs1 ++ cs2) -> cache_match c' e = None) ->
     entry (storage w) CACHE_NAME e = None /\
     (static_class e ->
      fst (on_fetch h e w) = RespondWith (Fulfilled (Some v))) /\
     (navigation_class e -> network h e = None ->
      fst (on_fetch h e w) = RespondWith (Fulfilled (Some v)))).
Proof.
  split; [|split].
  - intros t. unfold on_fetch.
    destruct (negb (method e =? "GET")); simpl; auto.
    destruct (negb (origin (url e) =? location_origin)); simpl; auto.
    unfold respondWith, catch, and_then, fetch, caches_match, and_later,
      caches_open, resolve.
    destruct (is_html e); simpl.
    + destruct (network h e); simpl; auto.
      intros Hin. apply in_app_or in Hin. destruct Hin as [Hin|[<-|[]]]; eauto.
    + destruct (storage_match (storage w) e); simpl; auto.
      destruct (network h e); simpl; auto.
      intros Hin. apply in_app_or in Hin. destruct Hin as [Hin|[<-|[]]]; eauto.
  - intros v m Hne. unfold run_task, put. simpl.
    destruct (storable h e v); simpl; [|reflexivity].
    rewrite storage_get_update.
    apply String.eqb_neq in Hne. rewrite Hne. reflexivity.
  - intros cs1 n c cs2 v Hi Hne Hst Hc Hnone.
    assert (Hm : storage_match (storage w) e = Some v).
    { rewrite Hst, storage_match_app. simpl.
      assert (H1 : storage_match cs1 e = None).
      { apply storage_match_none. intros m c' Hin.
        apply (Hnone m c'). apply in_or_app. auto. }
      rewrite H1, Hc. reflexivity. }
    split; [|split].
    + unfold entry. destruct (storage_get (storage w) CACHE_NAME) as [c'|] eqn:G;
        [|reflexivity].
      apply storage_get_In in G. rewrite Hst in G.
      apply in_app_or in G. destruct G as [G|[G|G]].
      * apply (Hnone CACHE_NAME c'). apply in_or_app. auto.
      * injection G as -> _. congruence.
      * apply (Hnone CACHE_NAME c'). apply in_or_app. auto.
    + intros Hs. rewrite (cache_hit h w Hs Hm). reflexivity.
    + intros Hnav Hn. apply navigation_class_html in Hnav.
      destruct Hnav as [_ Hh]. rewrite (on_fetch_html h w Hi Hh).
      unfold respondWith, network_first. rewrite Hn, Hm. reflexivity.
Qed.

(** ** Fetch: no status check before the cache write *)

(** C10. Whatever the status of the response the network call of the listener
    resolves with (404 and 500 included), the listener starts the task that
    puts a copy of it into [CACHE_NAME]; nothing in the listener looks at the
    status. Once the storage has taken the write, that response is the entry
    of the request in [CACHE_NAME], and it is what later requests get: on a
    cache-first hit, and on the fallback of a navigation whose network call
    fails. *)
Theorem error_responses_cached (h : Host) (e : Request) (w : World)
    (res : Response) :
  intercepted e ->
  network h e = Some res ->
  navigation_class e \/ storage_match (storage w) e = None ->
  pending w = [] ->
  pending (snd (on_fetch h e w)) = [OpenPut CACHE_NAME e (clone res)] /\
  (storable h e (clone res) = true ->
   entry (storage (run_pending h (snd (on_fetch h e w)))) CACHE_NAME e
   = Some res /\
   (storage_match (storage w) e = None ->
    forall h2,
      (static_class e ->
       fst (on_fetch h2 e (run_pending h (snd (on_fetch h e w))))
       = RespondWith (Fulfilled (Some res))) /\
      (navigation_class e -> network h2 e = None ->
       fst (on_fetch h2 e (run_pending h (snd (on_fetch h e w))))
       = RespondWith (Fulfilled (Some res))))).
Proof.
  intros Hi Hn Hc Hp. rewrite (fetched h w Hi Hn Hc). simpl.
  rewrite Hp. simpl. split; [reflexivity|].
  intros Hs.
  match goal with |- context [run_pending h ?x] => set (w1 := x) end.
  assert (Hst : storage (run_pending h w1) =
                storage_update (storage_open (storage w) CACHE_NAME) CACHE_NAME
                  (fun c => cache_put c e (clone res))).
  { apply (run_single_task h w1); [reflexivity | assumption]. }
  split.
  - rewrite Hst, entry_put. apply f_equal, clone_id.
  - intros Hmiss h2.
    assert (Hm : storage_match (storage (run_pending h w1)) e = Some res).
    { rewrite Hst, storage_match_put.
      - apply f_equal, clone_id.
      - apply storage_has_open.
      - rewrite storage_match_open. assumption. }
    split.
    + intros Hstatic. rewrite (cache_hit h2 _ Hstatic Hm). reflexivity.
    + intros Hnav Hdown. apply navigation_class_html in Hnav.
      destruct Hnav as [_ Hh]. rewrite (on_fetch_html h2 _ Hi Hh).
      unfold respondWith, network_first. rewrite Hdown, Hm. reflexivity.
Qed.

(** ** Batches of puts *)

Lemma without_app (rs : list Request) (c1 c2 : Cache) :
  without rs (c1 ++ c2) = without rs c1 ++ without rs c2.
Proof. apply filter_app. Qed.

Lemma without_idem (rs : list Request) (c : Cache) :
  without rs (without rs c) = without rs c.
Proof.
  unfold without. induction c as [|kv c IH]; simpl; [reflexivity|].
  destruct (existsb (same_request (fst kv)) rs) eqn:E; simpl; [assumption|].
  rewrite E. simpl. congruence.
Qed.

Lemma without_batch (l : list (Request * Response)) (rs : list Request) :
  incl (map fst l) rs -> without rs l = [].
Proof.
  unfold without. induction l as [|[k v] l IH]; simpl; intros Hi; [reflexivity|].
  assert (E : existsb (same_request k) rs = true).
  { apply existsb_exists. exists k. split.
    - apply Hi. simpl. auto.
    - apply same_request_refl. }
  rewrite E. simpl. apply IH. intros x Hx. apply Hi. simpl. auto.
Qed.

Lemma without_cons (r : Request) (rs : list Request) (c : Cache) :
  without rs (cache_delete c r) = without (r :: rs) c.
Proof.
  unfold without, cache_delete.
  induction c as [|[k v] c IH]; simpl; [reflexivity|].
  destruct (same_request k r); simpl; [exact IH|].
  destruct (existsb (same_request k) rs); simpl; [exact IH|].
  f_equal. exact IH.
Qed.

(** A batch of puts with pairwise different keys drops the entries it
    replaces and appends its own, in order. *)
Lemma put_all_distinct (l : list (Request * Response)) (c : Cache) :
  distinct_requests (map fst l) = true ->
  put_all c l = without (map fst l) c ++ l.
Proof.
  unfold put_all. revert c.
  induction l as [|[k v] l IH]; intros c Hd; simpl in *.
  - unfold without. rewrite app_nil_r. symmetry.
    apply forallb_filter_id. apply forallb_forall. reflexivity.
  - apply andb_true_iff in Hd. destruct Hd as [Hk Hd].
    rewrite (IH _ Hd). unfold cache_put.
    rewrite without_app, without_cons, <- app_assoc. f_equal.
    unfold without at 1. simpl. rewrite Hk. reflexivity.
Qed.

Lemma cache_match_without (rs : list Request) (c : Cache) (k : Request) :
  existsb (same_request k) rs = true -> cache_match (without rs c) k = None.
Proof.
  intros Hk. unfold without.
  induction c as [|[k' v] c IH]; simpl; [reflexivity|].
  destruct (existsb (same_request k') rs) eqn:E; simpl; [assumption|].
  destruct (same_request k' k) eqn:F; [|assumption].
  apply existsb_exists in Hk. destruct Hk as [r [Hr Hkr]].
  assert (E' : existsb (same_request k') rs = true).
  { apply existsb_exists. exists r. split; [assumption|].
    rewrite (same_request_subst _ _ r F). assumption. }
  congruence.
Qed.

Lemma cache_match_some (c : Cache) (k : Request) (v : Response) :
  cache_match c k = Some v ->
  exists k', In (k', v) c /\ same_request k' k = true.
Proof.
  induction c as [|[k' v'] c IH]; simpl; [discriminate|].
  destruct (same_request k' k) eqn:E.
  - intros H. injection H as ->. eauto.
  - intros H. destruct (IH H) as [k2 [Hin Hs]]. eauto.
Qed.

Lemma cache_match_In (c : Cache) (k : Request) (v : Response) :
  In (k, v) c -> exists v', cache_match c k = Some v'.
Proof.
  induction c as [|[k' v'] c IH]; simpl; [intros []|].
  intros [H|H].
  - injection H as -> ->. rewrite same_request_refl. eauto.
  - destruct (same_request k' k); eauto.
Qed.

(** ** What [addAll] collects *)

Lemma collect_fulfilled (h : Host) (rs : list Request)
    (l : list (Request * Response)) :
  collect h rs = Fulfilled l ->
  map fst l = rs /\
  forall k v, In (k, v) l -> network h k = Some v.
Proof.
  revert l. induction rs as [|r rs IH]; simpl; intros l H.
  - injection H as <-. split; [reflexivity | intros k v []].
  - destruct (network h r) as [res|] eqn:N; [|discriminate].
    destruct (ok res); simpl in H; [|discriminate].
    destruct (storable h r res); simpl in H; [|discriminate].
    destruct (collect h rs) as [l'|] eqn:C; [|discriminate].
    injection H as <-. destruct (IH l' eq_refl) as [Hm Hn]. simpl. split.
    + congruence.
    + intros k v [Heq|Hin]; [injection Heq as <- <-; assumption | auto].
Qed.

Lemma collect_accepted (h : Host) (rs : list Request) :
  (forall r, In r rs -> accepted h r) <-> exists l, collect h rs = Fulfilled l.
Proof.
  induction rs as [|r rs IH]; simpl.
  - split; [eauto | intros _ r []].
  - split.
    + intros H. destruct (H r (or_introl eq_refl)) as [res [N [O S]]].
      rewrite N, O, S. simpl.
      destruct (proj1 IH (fun x Hx => H x (or_intror Hx))) as [l ->]. eauto.
    + intros [l H].
      destruct (network h r) as [res|] eqn:N; [|discriminate].
      destruct (ok res) eqn:O; simpl in H; [|discriminate].
      destruct (storable h r res) eqn:S; simpl in H; [|discriminate].
      destruct (collect h rs) as [l'|] eqn:C; [|discriminate].
      intros x [<-|Hx].
      * exists res. auto.
      * apply (proj2 IH); eauto.
Qed.

(** When two batches both go through, what they collect depends on the
    responses of the network only. *)
Lemma collect_same_network (h1 h2 : Host) (rs : list Request)
    (l1 l2 : list (Request * Response)) :
  (forall r, In r rs -> network h2 r = network h1 r) ->
  collect h1 rs = Fulfilled l1 -> collect h2 rs = Fulfilled l2 -> l2 = l1.
Proof.
  revert l1 l2. induction rs as [|r rs IH]; simpl; intros l1 l2 Hn H1 H2.
  - congruence.
  - rewrite (Hn r (or_introl eq_refl)) in H2.
    destruct (network h1 r) as [res|]; [|discriminate].
    destruct (ok res); simpl in *; [|discriminate].
    destruct (storable h1 r res); simpl in *; [|discriminate].
    destruct (storable h2 r res); simpl in *; [|discriminate].
    destruct (collect h1 rs) as [l1'|]; [|discriminate].
    destruct (collect h2 rs) as [l2'|]; [|discriminate].
    injection H1 as <-. injection H2 as <-.
    f_equal. apply IH; auto.
Qed.

(** ** The manifest *)

Lemma eqb_append_l (s x y : string) : ((s ++ x) =? (s ++ y))%string = (x =? y)%string.
Proof.
  induction s as [|a s IH]; simpl; [reflexivity|].
  rewrite Ascii.eqb_refl. assumption.
Qed.

Lemma same_asset_request (a b : string) :
  same_request (asset_request a) (asset_request b)
  = (relative_path a =? relative_path b)%string.
Proof.
  unfold same_request, url_eqb, asset_request, resolve_url. simpl.
  rewrite String.eqb_refl, eqb_append_l. simpl.
  apply andb_true_r.
Qed.

Lemma same_asset_eq (a b : string) :
  same_request (asset_request a) (asset_request b) = true ->
  asset_request a = asset_request b.
Proof.
  intros H. apply same_request_key in H. unfold request_key in H.
  unfold asset_request, resolve_url in *. simpl in H. injection H as H.
  rewrite H. reflexivity.
Qed.

(** The six requests of the manifest have six different keys. *)
Lemma asset_requests_distinct :
  distinct_requests (map asset_request ASSETS) = true.
Proof.
  unfold ASSETS. simpl. rewrite !same_asset_request. reflexivity.
Qed.

(** ** Install, step by step *)

Lemma announce (rs : list Request) (w : World) :
  fold_left (fun w r => emit (NetFetch r) w) rs w =
  {| storage := storage w; pending := pending w;
     log := log w ++ map NetFetch rs |}.
Proof.
  revert w. induction rs as [|r rs IH]; intros w; simpl.
  - rewrite app_nil_r. destruct w; reflexivity.
  - rewrite IH. simpl. rewrite <- app_assoc. reflexivity.
Qed.

Lemma install_run (h : Host) (w : World) :
  install h w =
  match collect h (map asset_request ASSETS) with
  | Fulfilled l =>
      (Fulfilled tt,
       {| storage := storage_update (storage_open (storage w) CACHE_NAME)
                       CACHE_NAME (fun c => put_all c l);
          pending := pending w;
          log := ((log w ++ [CachesOpen CACHE_NAME])
                    ++ [CacheAddAll CACHE_NAME (map asset_request ASSETS)])
                   ++ map NetFetch (map asset_request ASSETS)
                   ++ [SkipWaiting] |})
  | Rejected e =>
      (Rejected e,
       {| storage := storage_update (storage_open (storage w) CACHE_NAME)
                       CACHE_NAME
                       (fun c => put_all c
                                   (written_on_failure h
                                      (map asset_request ASSETS)));
          pending := pending w;
          log := ((log w ++ [CachesOpen CACHE_NAME])
                    ++ [CacheAddAll CACHE_NAME (map asset_request ASSETS)])
                   ++ map NetFetch (map asset_request ASSETS) |})
  end.
Proof.
  unfold install, and_then, caches_open, addAll, skipWaiting.
  rewrite announce.
  destruct (collect h (map asset_request ASSETS)) as [l|err].
  - unfold emit, set_storage. cbn [storage pending log].
    rewrite <- !app_assoc. reflexivity.
  - unfold emit, set_storage. cbn [storage pending log]. reflexivity.
Qed.

(** Opening the current generation creates it empty or leaves it alone. *)
Lemma current_open (cs : CacheStorage) :
  storage_get (storage_open cs CACHE_NAME) CACHE_NAME = Some (current cs).
Proof.
  unfold storage_open, current.
  destruct (storage_has cs CACHE_NAME) eqn:E.
  - destruct (storage_has_get _ _ E) as [c ->]. reflexivity.
  - rewrite (storage_get_app_new _ _ E), (storage_has_false_get _ _ E).
    reflexivity.
Qed.

Lemma storage_open_present (cs : CacheStorage) (n : string) :
  storage_has cs n = true -> storage_open cs n = cs.
Proof. unfold storage_open. intros ->. reflexivity. Qed.

Lemma storage_has_update (cs : CacheStorage) (n m : string) (f : Cache -> Cache) :
  storage_has (storage_update cs n f) m = storage_has cs m.
Proof.
  unfold storage_has.
  induction cs as [|[k c] cs IH]; simpl; [reflexivity|].
  destruct (k =? n); simpl; congruence.
Qed.

Lemma storage_update_twice (cs : CacheStorage) (n : string) (f g : Cache -> Cache) :
  storage_update (storage_update cs n f) n g
  = storage_update cs n (fun c => g (f c)).
Proof.
  induction cs as [|[k c] cs IH]; simpl; [reflexivity|].
  destruct (k =? n) eqn:E; simpl; rewrite E; congruence.
Qed.

Lemma storage_update_ext (cs : CacheStorage) (n : string) (f g : Cache -> Cache) :
  (forall c, storage_get cs n = Some c -> f c = g c) ->
  storage_update cs n f = storage_update cs n g.
Proof.
  induction cs as [|[k c] cs IH]; simpl; intros H; [reflexivity|].
  destruct (k =? n) eqn:E.
  - rewrite (H c eq_refl). reflexivity.
  - f_equal. auto.
Qed.

(** What a successful install leaves in the storage. *)
Lemma install_fulfilled (h : Host) (w : World) :
  fst (install h w) = Fulfilled tt ->
  exists l,
    collect h (map asset_request ASSETS) = Fulfilled l /\
    storage (snd (install h w)) =
      storage_update (storage_open (storage w) CACHE_NAME) CACHE_NAME
        (fun c => put_all c l) /\
    current (storage (snd (install h w))) =
      without (map asset_request ASSETS) (current (storage w)) ++ l.
Proof.
  rewrite install_run.
  destruct (collect h (map asset_request ASSETS)) as [l|err] eqn:C;
    [|discriminate].
  intros _. exists l. cbn [snd storage]. repeat split.
  unfold current at 1. rewrite storage_get_update, String.eqb_refl, current_open.
  cbn [option_map].
  destruct (collect_fulfilled _ _ C) as [Hk _].
  rewrite put_all_distinct; rewrite Hk; [reflexivity|].
  apply asset_requests_distinct.
Qed.

Lemma asset_entry (h : Host) (l : list (Request * Response)) (c : Cache)
    (a : string) :
  collect h (map asset_request ASSETS) = Fulfilled l ->
  In a ASSETS ->
  exists res,
    network h (asset_request a) = Some res /\
    cache_match (without (map asset_request ASSETS) c ++ l) (asset_request a)
    = Some res.
Proof.
  intros C Ha. destruct (collect_fulfilled _ _ C) as [Hk Hn].
  assert (Hin : In (asset_request a) (map fst l)).
  { rewrite Hk. apply in_map. assumption. }
  apply in_map_iff in Hin. destruct Hin as [[k v] [Hfst Hin]].
  simpl in Hfst. subst k.
  destruct (cache_match_In _ _ _ Hin) as [v' Hv'].
  destruct (cache_match_some _ _ Hv') as [k' [Hin' Hs]].
  assert (Hk' : In k' (map asset_request ASSETS)).
  { rewrite <- Hk. apply in_map_iff. exists (k', v'). auto. }
  apply in_map_iff in Hk'. destruct Hk' as [b [<- Hb]].
  apply same_asset_eq in Hs.
  exists v'. split.
  - rewrite <- Hs. apply Hn. assumption.
  - rewrite cache_match_app, cache_match_without; [assumption|].
    apply existsb_exists. exists (asset_request a). split.
    + apply in_map. assumption.
    + apply same_request_refl.
Qed.

(** ** Install *)

(** C1. Install is all-or-nothing. When the install promise is fulfilled, each
    of the six manifest requests has an entry in the generation [CACHE_NAME],
    the response the network gave for it. When one manifest asset fails to be
    fetched (the network call fails or the response is not [ok]) or to be
    stored, the install promise is rejected; and it is fulfilled when none
    fails. *)
Theorem install_all_or_nothing (h : Host) (w : World) :
  (fst (install h w) = Fulfilled tt ->
   forall a, In a ASSETS ->
     exists res,
       network h (asset_request a) = Some res /\
       entry (storage (snd (install h w))) CACHE_NAME (asset_request a)
       = Some res) /\
  ((exists a, In a ASSETS /\ ~ accepted h (asset_request a)) ->
   exists err, fst (install h w) = Rejected err) /\
  ((forall a, In a ASSETS -> accepted h (asset_request a)) ->
   fst (install h w) = Fulfilled tt).
Proof.
  split; [|split].
  - intros Hok a Ha.
    destruct (install_fulfilled h w Hok) as [l [C [_ Hcur]]].
    destruct (@asset_entry h l (current (storage w)) a C Ha) as [res [Hn Hm]].
    exists res. split; [assumption|].
    rewrite <- Hcur in Hm. unfold entry.
    unfold current in Hm.
    destruct (storage_get (storage (snd (install h w))) CACHE_NAME);
      [assumption | discriminate].
  - intros [a [Ha Hbad]]. rewrite install_run.
    destruct (collect h (map asset_request ASSETS)) as [l|err] eqn:C.
    + exfalso. apply Hbad.
      apply (proj2 (collect_accepted h (map asset_request ASSETS))
               (ex_intro _ l C)).
      apply in_map. assumption.
    + exists err. reflexivity.
  - intros Hall. rewrite install_run.
    destruct (proj1 (collect_accepted h (map asset_request ASSETS))) as [l ->].
    + intros r Hr. apply in_map_iff in Hr. destruct Hr as [a [<- Ha]]. auto.
    + reflexivity.
Qed.

(** ** Installing twice *)

Lemma cache_keys_app (c1 c2 : Cache) :
  cache_keys (c1 ++ c2) = cache_keys c1 ++ cache_keys c2.
Proof. apply map_app. Qed.

Lemma cache_keys_batch (l : list (Request * Response)) :
  cache_keys l = map request_key (map fst l).
Proof. unfold cache_keys. rewrite map_map. reflexivity. Qed.

(** A batch over what a batch with the same keys left. *)
Lemma without_after_batch (rs : list Request) (c : Cache)
    (l : list (Request * Response)) :
  map fst l = rs ->
  without rs (without rs c ++ l) = without rs c.
Proof.
  intros Hk. rewrite without_app, without_idem.
  rewrite (@without_batch l rs), app_nil_r.
  - reflexivity.
  - rewrite Hk. apply incl_refl.
Qed.

Lemma put_all_twice (l : list (Request * Response)) (c : Cache) :
  distinct_requests (map fst l) = true ->
  put_all (put_all c l) l = put_all c l.
Proof.
  intros Hd. rewrite !put_all_distinct by assumption.
  rewrite without_after_batch; reflexivity.
Qed.

Lemma NoDup_keys_without (rs : list Request) (c : Cache) :
  NoDup (cache_keys c) -> NoDup (cache_keys (without rs c)).
Proof.
  unfold cache_keys, without.
  induction c as [|kv c IH]; simpl; intros H; [constructor|].
  inversion H as [|x xs Hnot Hnd]; subst.
  destruct (existsb (same_request (fst kv)) rs); simpl; auto.
  constructor; auto.
  intros Hin. apply Hnot.
  apply in_map_iff in Hin. destruct Hin as [kv' [Hk Hin]].
  apply filter_In in Hin. destruct Hin as [Hin _].
  apply in_map_iff. eauto.
Qed.

Lemma NoDup_distinct (rs : list Request) :
  distinct_requests rs = true -> NoDup (map request_key rs).
Proof.
  induction rs as [|r rs IH]; simpl; intros H; [constructor|].
  apply andb_true_iff in H. destruct H as [Hr Hd].
  constructor; auto.
  intros Hin. apply in_map_iff in Hin. destruct Hin as [r' [Hk Hin]].
  apply negb_true_iff in Hr.
  assert (E : existsb (same_request r) rs = true).
  { apply existsb_exists. exists r'. split; [assumption|].
    apply same_request_key. auto. }
  congruence.
Qed.

Lemma NoDup_installed (rs : list Request) (c : Cache)
    (l : list (Request * Response)) :
  map fst l = rs ->
  distinct_requests rs = true ->
  NoDup (cache_keys c) ->
  NoDup (cache_keys (without rs c ++ l)).
Proof.
  intros Hk Hd Hc.
  rewrite cache_keys_app, (cache_keys_batch l), Hk.
  apply NoDup_app.
  - apply NoDup_keys_without. assumption.
  - apply NoDup_distinct. assumption.
  - intros key Hin Hin'.
    unfold cache_keys, without in Hin.
    apply in_map_iff in Hin. destruct Hin as [kv [Hkey Hin]].
    apply filter_In in Hin. destruct Hin as [_ Hf].
    apply negb_true_iff in Hf.
    apply in_map_iff in Hin'. destruct Hin' as [r [Hr Hin']].
    assert (E : existsb (same_request (fst kv)) rs = true).
    { apply existsb_exists. exists r. split; [assumption|].
      apply same_request_key. congruence. }
    congruence.
Qed.

(** C8. Install is idempotent on the key set. When install succeeds and is run
    a second time, with success, on what the first run left, the keys of the
    generation [CACHE_NAME] after the second run are the keys after the first
    (the same list), the generations of the storage are the same, and the
    keys are free of duplicates when they were before installing. When the
    network answers the manifest requests as it did the first time, the
    second run leaves the whole storage, values included, as the first left
    it. *)
Theorem install_idempotent (h1 h2 : Host) (w : World) :
  fst (install h1 w) = Fulfilled tt ->
  fst (install h2 (snd (install h1 w))) = Fulfilled tt ->
  cache_keys (current (storage (snd (install h2 (snd (install h1 w))))))
  = cache_keys (current (storage (snd (install h1 w)))) /\
  storage_keys (storage (snd (install h2 (snd (install h1 w)))))
  = storage_keys (storage (snd (install h1 w))) /\
  (NoDup (cache_keys (current (storage w))) ->
   NoDup (cache_keys (current (storage (snd (install h2 (snd (install h1 w)))))))) /\
  ((forall a, In a ASSETS ->
      network h2 (asset_request a) = network h1 (asset_request a)) ->
   storage (snd (install h2 (snd (install h1 w))))
   = storage (snd (install h1 w))).
Proof.
  intros H1 H2.
  destruct (install_fulfilled h1 w H1) as [l1 [C1 [S1 Cur1]]].
  destruct (install_fulfilled h2 _ H2) as [l2 [C2 [S2 Cur2]]].
  destruct (collect_fulfilled _ _ C1) as [K1 _].
  destruct (collect_fulfilled _ _ C2) as [K2 _].
  assert (Hopen : storage_open (storage (snd (install h1 w))) CACHE_NAME
                  = storage (snd (install h1 w))).
  { apply storage_open_present. rewrite S1, storage_has_update.
    apply storage_has_open. }
  assert (Cur2' : current (storage (snd (install h2 (snd (install h1 w)))))
                  = without (map asset_request ASSETS) (current (storage w)) ++ l2).
  { rewrite Cur2, Cur1, without_after_batch; [reflexivity | assumption]. }
  split; [|split; [|split]].
  - rewrite Cur2', Cur1, !cache_keys_app.
    rewrite (cache_keys_batch l1), (cache_keys_batch l2), K1, K2.
    reflexivity.
  - rewrite S2, Hopen, storage_keys_update. reflexivity.
  - intros Hnd. rewrite Cur2'.
    apply NoDup_installed; auto. apply asset_requests_distinct.
  - intros Hnet.
    assert (L : l2 = l1).
    { apply (collect_same_network h1 h2 (map asset_request ASSETS)); auto.
      intros r Hr. apply in_map_iff in Hr. destruct Hr as [a [<- Ha]]. auto. }
    subst l2. rewrite S2, Hopen. rewrite S1 at 1.
    rewrite storage_update_twice, S1.
    apply storage_update_ext. intros c _.
    apply put_all_twice. rewrite K1. apply asset_requests_distinct.
Qed.

(** ** Entries under batches *)

Lemma cache_match_put_all_other (l : list (Request * Response)) (c : Cache)
    (r : Request) :
  (forall k, In k (map fst l) -> same_request k r = false) ->
  cache_match (put_all c l) r = cache_match c r.
Proof.
  unfold put_all. revert c.
  induction l as [|[k v] l IH]; intros c H; simpl; [reflexivity|].
  rewrite IH.
  - rewrite cache_match_put, (H k); [reflexivity | simpl; auto].
  - intros k' Hk'. apply H. simpl. auto.
Qed.

(** Dropping elements keeps a list free of duplicates under [key]. *)
Lemma written_on_failure_keys (h : Host) (rs : list Request) (k : Request) :
  In k (map fst (written_on_failure h rs)) -> In k rs.
Proof.
  unfold written_on_failure. intros Hin.
  apply in_map_iff in Hin. destruct Hin as [[k' v] [Hk Hin]]. simpl in Hk.
  subst k'. apply filter_In in Hin. destruct Hin as [Hin _].
  induction rs as [|r rs IH]; simpl in Hin; [contradiction|].
  destruct (network h r) as [res|]; [|simpl; auto].
  destruct (ok res && storable h r res); [|simpl; auto].
  destruct Hin as [Heq|Hin]; [injection Heq as -> _; simpl; auto|].
  simpl. auto.
Qed.

Lemma filter_keeps_NoDup (X Y : Type) (key : X -> Y) (keep : X -> bool) :
  forall xs, NoDup (map key xs) -> NoDup (map key (filter keep xs)).
Proof.
  intros xs. induction xs as [|x xs IHxs]; cbn; intros Hnd; [exact Hnd|].
  apply NoDup_cons_iff in Hnd. destruct Hnd as [Hfresh Hrest].
  destruct (keep x); cbn; [apply NoDup_cons_iff; split|]; auto.
  intros Hin. apply Hfresh.
  apply in_map_iff in Hin. destruct Hin as [y [Hy Hin]].
  apply filter_In in Hin. apply in_map_iff. exists y. tauto.
Qed.

Lemma NoDup_keys_put (c : Cache) (r : Request) (v : Response) :
  NoDup (cache_keys c) -> NoDup (cache_keys (cache_put c r v)).
Proof.
  intros H. unfold cache_put. rewrite cache_keys_app.
  apply NoDup_app.
  - unfold cache_keys, cache_delete. apply filter_keeps_NoDup. exact H.
  - simpl. constructor; [intros [] | constructor].
  - intros key Hin [Hk|[]]. simpl in Hk.
    unfold cache_keys, cache_delete in Hin.
    apply in_map_iff in Hin. destruct Hin as [kv [Hkey Hin]].
    apply filter_In in Hin. destruct Hin as [_ Hf].
    apply negb_true_iff in Hf.
    assert (E : same_request (fst kv) r = true).
    { apply same_request_key. congruence. }
    congruence.
Qed.

Lemma NoDup_keys_put_all (l : list (Request * Response)) (c : Cache) :
  NoDup (cache_keys c) -> NoDup (cache_keys (put_all c l)).
Proof.
  unfold put_all. revert c.
  induction l as [|[k v] l IH]; intros c H; simpl; [exact H|].
  apply IH. apply NoDup_keys_put. exact H.
Qed.

Lemma In_storage_update (cs : CacheStorage) (n m : string) (f : Cache -> Cache)
    (c' : Cache) :
  In (m, c') (storage_update cs n f) ->
  exists c, In (m, c) cs /\ (c' = c \/ c' = f c).
Proof.
  induction cs as [|[k c] cs IH]; simpl; [intros []|].
  destruct (k =? n); simpl.
  - intros [H|H].
    + injection H as <- <-. exists c. auto.
    + exists c'. auto.
  - intros [H|H].
    + injection H as <- <-. exists c. auto.
    + destruct (IH H) as [c0 [Hin Hc]]. exists c0. auto.
Qed.

Lemma storage_wf_open (cs : CacheStorage) (n : string) :
  storage_wf cs -> storage_wf (storage_open cs n).
Proof.
  intros [Hn Hc]. unfold storage_open.
  destruct (storage_has cs n) eqn:E; [split; assumption|].
  split.
  - unfold storage_keys. rewrite map_app. simpl.
    apply NoDup_app; [exact Hn | constructor; [intros [] | constructor] |].
    intros m Hin [<-|[]].
    apply storage_has_In in Hin. congruence.
  - intros m c Hin. apply in_app_or in Hin. destruct Hin as [Hin|[Hin|[]]].
    + eauto.
    + injection Hin as _ <-. constructor.
Qed.

Lemma storage_wf_update (cs : CacheStorage) (n : string) (f : Cache -> Cache) :
  (forall c, NoDup (cache_keys c) -> NoDup (cache_keys (f c))) ->
  storage_wf cs -> storage_wf (storage_update cs n f).
Proof.
  intros Hf [Hn Hc]. split.
  - rewrite storage_keys_update. exact Hn.
  - intros m c' Hin. apply In_storage_update in Hin.
    destruct Hin as [c [Hin [->| ->]]]; eauto.
Qed.

Lemma storage_wf_filter (cs : CacheStorage) (p : string * Cache -> bool) :
  storage_wf cs -> storage_wf (filter p cs).
Proof.
  intros [Hn Hc]. split.
  - unfold storage_keys. apply filter_keeps_NoDup. exact Hn.
  - intros m c Hin. apply filter_In in Hin. destruct Hin as [Hin _]. eauto.
Qed.

(** ** Install: what else it does and does not do *)

(** X1. [self.skipWaiting()] is called exactly when the pre-cache succeeded:
    the calls install adds to the log contain [SkipWaiting] if and only if
    the install promise is fulfilled, and then it is the last call and is
    made once. Install starts no detached task, and whether it succeeds or
    not the generation [CACHE_NAME] exists afterwards. *)
Theorem skip_waiting_only_when_installed (h : Host) (w : World) :
  exists l,
    log (snd (install h w)) = log w ++ l /\
    (In SkipWaiting l <-> fst (install h w) = Fulfilled tt) /\
    (fst (install h w) = Fulfilled tt ->
     exists l', l = l' ++ [SkipWaiting] /\ ~ In SkipWaiting l') /\
    pending (snd (install h w)) = pending w /\
    storage_has (storage (snd (install h w))) CACHE_NAME = true.
Proof.
  rewrite install_run.
  set (rs := map asset_request ASSETS).
  assert (Hno : ~ In SkipWaiting
                  ([CachesOpen CACHE_NAME] ++ [CacheAddAll CACHE_NAME rs]
                     ++ map NetFetch rs)).
  { intros Hin. destruct Hin as [Hin|[Hin|Hin]]; try discriminate.
    apply in_map_iff in Hin. destruct Hin as [r [Hr _]]. discriminate. }
  destruct (collect h rs) as [l|err]; cbn [fst snd log pending storage].
  - exists (([CachesOpen CACHE_NAME] ++ [CacheAddAll CACHE_NAME rs]
               ++ map NetFetch rs) ++ [SkipWaiting]).
    repeat split.
    + rewrite <- !app_assoc. reflexivity.
    + intros _. apply in_or_app. right. simpl. auto.
    + intros _. eexists. split; [reflexivity | exact Hno].
    + rewrite storage_has_update. apply storage_has_open.
  - exists ([CachesOpen CACHE_NAME] ++ [CacheAddAll CACHE_NAME rs]
              ++ map NetFetch rs).
    repeat split.
    + rewrite <- !app_assoc. reflexivity.
    + intros Hin. contradiction.
    + discriminate.
    + discriminate.
    + rewrite storage_has_update. apply storage_has_open.
Qed.

(** X3. Install touches the manifest entries of [CACHE_NAME] and nothing
    else: every other generation is left as it was, and in [CACHE_NAME] the
    entry of a request whose key is not a manifest key is unchanged, whether
    install is fulfilled or rejected and whatever a rejected batch has
    written. *)
Theorem install_touches_manifest_only (h : Host) (w : World) :
  (forall n, n <> CACHE_NAME ->
     storage_get (storage (snd (install h w))) n = storage_get (storage w) n) /\
  (forall r,
     (forall a, In a ASSETS -> same_request (asset_request a) r = false) ->
     entry (storage (snd (install h w))) CACHE_NAME r
     = entry (storage w) CACHE_NAME r).
Proof.
  rewrite install_run.
  destruct (collect h (map asset_request ASSETS)) as [l|err] eqn:C;
    cbn [fst snd storage].
  - split.
    + intros n Hne. rewrite storage_get_update.
      apply String.eqb_neq in Hne. rewrite Hne.
      apply storage_get_open. apply String.eqb_neq. exact Hne.
    + intros r Hr. rewrite (entry_current (storage w)).
      unfold entry. rewrite storage_get_update, String.eqb_refl, current_open.
      cbn [option_map]. apply cache_match_put_all_other.
      destruct (collect_fulfilled _ _ C) as [Hk _]. rewrite Hk.
      intros k Hin. apply in_map_iff in Hin. destruct Hin as [a [<- Ha]].
      auto.
  - split.
    + intros n Hne. rewrite storage_get_update.
      apply String.eqb_neq in Hne. rewrite Hne.
      apply storage_get_open. apply String.eqb_neq. exact Hne.
    + intros r Hr. rewrite (entry_current (storage w)).
      unfold entry. rewrite storage_get_update, String.eqb_refl, current_open.
      cbn [option_map]. apply cache_match_put_all_other.
      intros k Hin. apply written_on_failure_keys in Hin.
      apply in_map_iff in Hin. destruct Hin as [a [<- Ha]]. auto.
Qed.

(** ** Fetch: what else the listener does and does not do *)

Lemma intercepted_dec (e : Request) :
  intercepted e \/ (method e <> "GET" \/ origin (url e) <> location_origin).
Proof.
  unfold intercepted.
  destruct (String.eqb_spec (method e) "GET");
    destruct (String.eqb_spec (origin (url e)) location_origin); auto.
Qed.

(** The listener in full: one case per way through it. *)
Lemma on_fetch_cases (h : Host) (e : Request) (w : World) :
  (~ intercepted e /\ on_fetch h e w = (PassThrough, w)) \/
  (navigation_class e /\
   on_fetch h e w = respondWith (network_first h e) w) \/
  (static_class e /\
   on_fetch h e w = respondWith (cache_first h e) w).
Proof.
  destruct (intercepted_dec e) as [Hi|Hb].
  - destruct (is_html e) eqn:Hh.
    + right. left. split.
      * apply navigation_class_html. auto.
      * apply on_fetch_html; assumption.
    + right. right. split.
      * apply static_class_html. auto.
      * apply on_fetch_static; assumption.
  - left. split.
    + unfold intercepted. tauto.
    + apply on_fetch_bypass. exact Hb.
Qed.

Lemma classes_exclusive (e : Request) :
  navigation_class e -> static_class e -> False.
Proof. intros [_ H1] [_ H2]. contradiction. Qed.

(** X4. Network-first fallback: for a navigation-class request whose network
    call fails while an entry for it is cached, the promise handed to
    [respondWith] is fulfilled with that entry; the listener makes the network
    call, then the cache lookup, opens nothing, writes nothing and starts no
    task. *)
Theorem navigation_fallback (h : Host) (e : Request) (w : World) (c : Response) :
  navigation_class e ->
  network h e = None ->
  storage_match (storage w) e = Some c ->
  on_fetch h e w =
    (RespondWith (Fulfilled (Some c)),
     {| storage := storage w; pending := pending w;
        log := log w ++ [NetFetch e; CachesMatch e] |}).
Proof.
  intros Hc Hn Hm. apply navigation_class_html in Hc. destruct Hc as [Hi Hh].
  rewrite (on_fetch_html h w Hi Hh).
  unfold respondWith, network_first. rewrite Hn, Hm. reflexivity.
Qed.

(** X5. The listener itself writes no entry and never retries. Whatever the
    request, the storage after the listener is the storage before, or the
    storage before with [CACHE_NAME] opened; every entry of every generation
    and every storage-wide lookup is as before. The calls it adds are at most
    one network call and one cache lookup for the request of the event, and,
    after a network call that succeeded, one [caches.open(CACHE_NAME)];
    then, and only then, it starts one task, the put of the returned network
    response under the request of the event into [CACHE_NAME]. *)
Theorem fetch_listener_frame (h : Host) (e : Request) (w : World) :
  (storage (snd (on_fetch h e w)) = storage w \/
   storage (snd (on_fetch h e w)) = storage_open (storage w) CACHE_NAME) /\
  (forall n r, entry (storage (snd (on_fetch h e w))) n r
               = entry (storage w) n r) /\
  (forall r, storage_match (storage (snd (on_fetch h e w))) r
             = storage_match (storage w) r) /\
  exists l,
    log (snd (on_fetch h e w)) = log w ++ l /\
    ((pending (snd (on_fetch h e w)) = pending w /\
      (l = [] \/ l = [CachesMatch e] \/ l = [NetFetch e; CachesMatch e] \/
       l = [CachesMatch e; NetFetch e])) \/
     (exists res,
        network h e = Some res /\
        fst (on_fetch h e w) = RespondWith (Fulfilled (Some res)) /\
        pending (snd (on_fetch h e w))
        = pending w ++ [OpenPut CACHE_NAME e res] /\
        (l = [NetFetch e; CachesOpen CACHE_NAME] \/
         l = [CachesMatch e; NetFetch e; CachesOpen CACHE_NAME]))).
Proof.
  assert (Same : forall w', storage w' = storage w ->
            (storage w' = storage w \/
             storage w' = storage_open (storage w) CACHE_NAME) /\
            (forall n r, entry (storage w') n r = entry (storage w) n r) /\
            (forall r, storage_match (storage w') r = storage_match (storage w) r)).
  { intros w' ->. auto. }
  assert (Opened : forall w', storage w' = storage_open (storage w) CACHE_NAME ->
            (storage w' = storage w \/
             storage w' = storage_open (storage w) CACHE_NAME) /\
            (forall n r, entry (storage w') n r = entry (storage w) n r) /\
            (forall r, storage_match (storage w') r = storage_match (storage w) r)).
  { intros w' ->. split; [auto|]. split.
    - intros n r. apply entry_open.
    - intros r. apply storage_match_open. }
  assert (T : (storage (snd (on_fetch h e w)) = storage w \/
               storage (snd (on_fetch h e w))
               = storage_open (storage w) CACHE_NAME) /\
              (forall n r, entry (storage (snd (on_fetch h e w))) n r
                           = entry (storage w) n r) /\
              (forall r, storage_match (storage (snd (on_fetch h e w))) r
                         = storage_match (storage w) r)).
  { destruct (on_fetch_cases h e w) as [[_ ->]|[[_ ->]|[_ ->]]].
    - apply Same. reflexivity.
    - unfold respondWith, network_first.
      destruct (network h e); [apply Opened | apply Same]; reflexivity.
    - unfold respondWith, cache_first.
      destruct (storage_match (storage w) e); [apply Same; reflexivity|].
      destruct (network h e); [apply Opened | apply Same]; reflexivity. }
  destruct T as [T1 [T2 T3]].
  split; [exact T1|]. split; [exact T2|]. split; [exact T3|].
  destruct (on_fetch_cases h e w) as [[_ ->]|[[_ ->]|[_ ->]]].
  - exists []. simpl. rewrite app_nil_r. auto.
  - unfold respondWith, network_first.
    destruct (network h e) as [res|]; simpl; eexists; (split; [reflexivity|]).
    + right. exists res. auto.
    + left. auto.
  - unfold respondWith, cache_first.
    destruct (storage_match (storage w) e) as [c|]; simpl;
      [eexists; split; [reflexivity|]; left; auto|].
    destruct (network h e) as [res|]; simpl; eexists; (split; [reflexivity|]).
    + right. exists res. auto.
    + left. auto 6.
Qed.

(** X6. What the listener answers, in full. It does not respond exactly when
    the request is not a same-origin GET. A response it gives is the response
    of the network call or the entry the cache lookup found, never anything
    else. The promise is rejected exactly for a static-asset request with a
    cache miss and a failed network call, and then with the network error. It
    is fulfilled with [undefined] exactly for a navigation-class request with
    a failed network call and a cache miss. *)
Theorem fetch_outcome (h : Host) (e : Request) (w : World) :
  (fst (on_fetch h e w) = PassThrough <-> ~ intercepted e) /\
  (forall v, fst (on_fetch h e w) = RespondWith (Fulfilled (Some v)) ->
     network h e = Some v \/ storage_match (storage w) e = Some v) /\
  (forall err, fst (on_fetch h e w) = RespondWith (Rejected err) <->
     err = NetworkError /\ static_class e /\
     network h e = None /\ storage_match (storage w) e = None) /\
  (fst (on_fetch h e w) = RespondWith (Fulfilled None) <->
     navigation_class e /\
     network h e = None /\ storage_match (storage w) e = None).
Proof.
  destruct (on_fetch_cases h e w) as [[Hn ->]|[[Hc ->]|[Hc ->]]].
  - simpl.
    assert (N1 : ~ navigation_class e) by (intros [Hi _]; contradiction).
    assert (N2 : ~ static_class e) by (intros [Hi _]; contradiction).
    (split; [|split; [|split]]); intros;
      intuition (try discriminate; try congruence).
  - pose proof (classes_exclusive Hc) as Hx.
    assert (Hi : intercepted e) by apply Hc.
    unfold respondWith, network_first.
    destruct (network h e) as [res|] eqn:N;
      [|destruct (storage_match (storage w) e) as [c|] eqn:M];
      simpl; (split; [|split; [|split]]); intros;
      intuition (try discriminate; try congruence).
  - pose proof (fun H => classes_exclusive H Hc) as Hx.
    assert (Hi : intercepted e) by apply Hc.
    unfold respondWith, cache_first.
    destruct (storage_match (storage w) e) as [c|] eqn:M;
      [|destruct (network h e) as [res|] eqn:N];
      simpl; (split; [|split; [|split]]); intros;
      intuition (try discriminate; try congruence).
Qed.

(** ** Detached tasks, one by one *)

Lemma run_task_storage (h : Host) (w : World) (n : string) (r : Request)
    (v : Response) :
  storage (run_task h (OpenPut n r v) w) =
  if storable h r v
  then storage_update (storage w) n (fun c => cache_put c r v)
  else storage w.
Proof.
  unfold run_task, put. destruct (storable h r v); reflexivity.
Qed.

Lemma run_task_pending (h : Host) (t : Task) (w : World) :
  pending (run_task h t w) = pending w.
Proof.
  destruct t as [n r v]. unfold run_task, put.
  destruct (storable h r v); reflexivity.
Qed.

Lemma run_tasks_pending (h : Host) (ts : list Task) (w : World) :
  pending (fold_left (fun w t => run_task h t w) ts w) = pending w.
Proof.
  revert w. induction ts as [|t ts IH]; intros w; simpl; [reflexivity|].
  rewrite IH. apply run_task_pending.
Qed.

Lemma run_tasks_done (h : Host) (order : list Task) (w : World) :
  pending (run_tasks h order w) = [].
Proof. unfold run_tasks. rewrite run_tasks_pending. reflexivity. Qed.

Lemma run_pending_done (h : Host) (w : World) : pending (run_pending h w) = [].
Proof. apply run_tasks_done. Qed.

(** A single pending task leaves no choice of order. *)
Lemma single_task_order (h : Host) (w : World) (t : Task) (order : list Task) :
  pending w = [t] -> Permutation order (pending w) ->
  run_tasks h order w = run_pending h w.
Proof.
  intros Hp Hperm. unfold run_pending. rewrite Hp in *.
  apply Permutation_sym, Permutation_length_1_inv in Hperm. rewrite Hperm.
  reflexivity.
Qed.


Lemma entry_after_put (cs : CacheStorage) (e r : Request) (v : Response) :
  entry (storage_update (storage_open cs CACHE_NAME) CACHE_NAME
           (fun c => cache_put c e v)) CACHE_NAME r
  = if same_request e r then Some v else entry cs CACHE_NAME r.
Proof.
  rewrite (entry_current cs). unfold entry.
  rewrite storage_get_update, String.eqb_refl, current_open. cbn [option_map].
  apply cache_match_put.
Qed.

Lemma entry_after_put_opened (cs : CacheStorage) (e r : Request)
    (v : Response) :
  storage_has cs CACHE_NAME = true ->
  entry (storage_update cs CACHE_NAME (fun c => cache_put c e v)) CACHE_NAME r
  = if same_request e r then Some v else entry cs CACHE_NAME r.
Proof.
  intros Hh. rewrite <- (storage_open_present _ _ Hh) at 1.
  apply entry_after_put.
Qed.

(** An intercepted request with a cached entry is answered with it whenever
    the listener gets to the cache. *)
Lemma answer_from_cache (h : Host) (e : Request) (w : World) (c : Response) :
  intercepted e ->
  storage_match (storage w) e = Some c ->
  (navigation_class e -> network h e = None) ->
  fst (on_fetch h e w) = RespondWith (Fulfilled (Some c)).
Proof.
  intros Hi Hm Hn. destruct (is_html e) eqn:Hh.
  - rewrite (on_fetch_html h w Hi Hh).
    unfold respondWith, network_first.
    rewrite Hn, Hm; [reflexivity|]. apply navigation_class_html. auto.
  - rewrite (on_fetch_static h w Hi Hh).
    unfold respondWith, cache_first. rewrite Hm. reflexivity.
Qed.

(** ** Fetch: the detached write, once it runs *)


(** X8. A cache write that goes through changes one key of one generation:
    afterwards [CACHE_NAME] exists, the request of the event has the network
    response as its entry in [CACHE_NAME], the entry in [CACHE_NAME] of every
    request with another method or URL and every other generation are as
    before, and no task is left pending. *)
Theorem cached_write_frame (h : Host) (e : Request) (w : World)
    (res : Response) :
  intercepted e ->
  network h e = Some res ->
  navigation_class e \/ storage_match (storage w) e = None ->
  pending w = [] ->
  storable h e (clone res) = true ->
  storage_has (storage (run_pending h (snd (on_fetch h e w)))) CACHE_NAME = true /\
  entry (storage (run_pending h (snd (on_fetch h e w)))) CACHE_NAME e
  = Some res /\
  (forall r, same_request e r = false ->
     entry (storage (run_pending h (snd (on_fetch h e w)))) CACHE_NAME r
     = entry (storage w) CACHE_NAME r) /\
  (forall n, n <> CACHE_NAME ->
     storage_get (storage (run_pending h (snd (on_fetch h e w)))) n
     = storage_get (storage w) n) /\
  pending (run_pending h (snd (on_fetch h e w))) = [].
Proof.
  intros Hi Hn Hc Hp Hs. rewrite run_pending_done.
  rewrite (fetched h w Hi Hn Hc). cbn [fst snd].
  unfold run_pending, run_tasks. cbn [pending storage log]. rewrite Hp.
  cbn [app fold_left].
  rewrite run_task_storage, Hs. cbn [storage].
  repeat split.
  - rewrite storage_has_update. apply storage_has_open.
  - rewrite entry_after_put, same_request_refl. apply f_equal, clone_id.
  - intros r Hr. rewrite entry_after_put, Hr. reflexivity.
  - intros n Hne. rewrite storage_get_update.
    apply String.eqb_neq in Hne. rewrite Hne.
    apply storage_get_open. apply String.eqb_neq. exact Hne.
Qed.

(** X9. The write that completes last wins, and nothing fixes which one that
    is. When the same request is fetched from the network twice before any
    cache write has run, two puts are pending; in whatever order they
    complete the entry in [CACHE_NAME] is one of the two responses, the one
    whose put ran last: the second response when the puts complete in the
    order started, the first when they complete in the other order. *)
Theorem last_write_wins (h1 h2 hs : Host) (e : Request) (w : World)
    (res1 res2 : Response) :
  intercepted e ->
  network h1 e = Some res1 ->
  network h2 e = Some res2 ->
  navigation_class e \/ storage_match (storage w) e = None ->
  pending w = [] ->
  storable hs e (clone res1) = true ->
  storable hs e (clone res2) = true ->
  pending (snd (on_fetch h2 e (snd (on_fetch h1 e w))))
  = [OpenPut CACHE_NAME e (clone res1); OpenPut CACHE_NAME e (clone res2)] /\
  (forall order,
     Permutation order (pending (snd (on_fetch h2 e (snd (on_fetch h1 e w))))) ->
     entry (storage (run_tasks hs order
                       (snd (on_fetch h2 e (snd (on_fetch h1 e w))))))
       CACHE_NAME e = Some res1 \/
     entry (storage (run_tasks hs order
                       (snd (on_fetch h2 e (snd (on_fetch h1 e w))))))
       CACHE_NAME e = Some res2) /\
  entry (storage (run_tasks hs
                    [OpenPut CACHE_NAME e (clone res1);
                     OpenPut CACHE_NAME e (clone res2)]
                    (snd (on_fetch h2 e (snd (on_fetch h1 e w))))))
    CACHE_NAME e = Some res2 /\
  entry (storage (run_tasks hs
                    [OpenPut CACHE_NAME e (clone res2);
                     OpenPut CACHE_NAME e (clone res1)]
                    (snd (on_fetch h2 e (snd (on_fetch h1 e w))))))
    CACHE_NAME e = Some res1.
Proof.
  intros Hi H1 H2 Hc Hp Hs1 Hs2.
  rewrite (fetched h1 w Hi H1 Hc). cbn [snd].
  assert (Hc' : navigation_class e \/
                storage_match (storage_open (storage w) CACHE_NAME) e = None).
  { destruct Hc as [Hc|Hc]; [auto|]. right. rewrite storage_match_open. exact Hc. }
  match goal with
  | |- context [on_fetch h2 e ?w1] => rewrite (fetched h2 w1 Hi H2 Hc')
  end.
  cbn [snd pending storage]. rewrite Hp. cbn [app].
  assert (Last : forall a b,
            storable hs e (clone a) = true ->
            storable hs e (clone b) = true ->
            forall lg,
            entry (storage (run_tasks hs
                              [OpenPut CACHE_NAME e (clone a);
                               OpenPut CACHE_NAME e (clone b)]
                              {| storage := storage_open
                                              (storage_open (storage w) CACHE_NAME)
                                              CACHE_NAME;
                                 pending := [OpenPut CACHE_NAME e (clone res1);
                                             OpenPut CACHE_NAME e (clone res2)];
                                 log := lg |}))
              CACHE_NAME e = Some b).
  { intros a b Ha Hb lg. unfold run_tasks. cbn [fold_left storage pending log].
    rewrite run_task_storage, Hb, entry_after_put_opened.
    - rewrite same_request_refl. apply f_equal, clone_id.
    - rewrite run_task_storage, Ha. cbn [storage].
      rewrite storage_has_update. apply storage_has_open. }
  split; [reflexivity|]. split; [|split].
  - intros order Hperm. apply Permutation_sym in Hperm.
    apply Permutation_length_2_inv in Hperm. destruct Hperm as [-> | ->].
    + right. apply Last; assumption.
    + left. apply Last; assumption.
  - apply Last; assumption.
  - apply Last; assumption.
Qed.

(** ** The storage stays well formed *)

Lemma run_task_wf (h : Host) (t : Task) (w : World) :
  storage_wf (storage w) -> storage_wf (storage (run_task h t w)).
Proof.
  intros H. destruct t as [n r v]. rewrite run_task_storage.
  destruct (storable h r v); [|exact H].
  apply storage_wf_update; [|exact H].
  intros c. apply NoDup_keys_put.
Qed.

Lemma run_tasks_wf (h : Host) (ts : list Task) (w : World) :
  storage_wf (storage w) ->
  storage_wf (storage (fold_left (fun w t => run_task h t w) ts w)).
Proof.
  revert w. induction ts as [|t ts IH]; intros w H; simpl; [exact H|].
  apply IH. apply run_task_wf. exact H.
Qed.

(** X10. Every handler keeps the storage well formed: when generation names
    are unique and no generation holds two entries with the same key, the
    same is true after install (fulfilled or rejected), after activate, after
    the fetch listener, and after the pending cache writes have run. *)
Theorem handlers_keep_storage_wf (h : Host) (e : Request) (w : World) :
  storage_wf (storage w) ->
  storage_wf (storage (snd (install h w))) /\
  storage_wf (storage (snd (activate w))) /\
  storage_wf (storage (snd (on_fetch h e w))) /\
  storage_wf (storage (run_pending h w)).
Proof.
  intros H. split; [|split; [|split]].
  - rewrite install_run.
    destruct (collect h (map asset_request ASSETS)) as [l|err];
      cbn [snd storage];
      (apply storage_wf_update;
       [intros c; apply NoDup_keys_put_all | apply storage_wf_open; exact H]).
  - rewrite activate_run. cbn [snd storage]. apply storage_wf_filter. exact H.
  - destruct (on_fetch_cases h e w) as [[_ ->]|[[_ ->]|[_ ->]]].
    + exact H.
    + unfold respondWith, network_first.
      destruct (network h e); [apply storage_wf_open|]; exact H.
    + unfold respondWith, cache_first.
      destruct (storage_match (storage w) e); [exact H|].
      destruct (network h e); [apply storage_wf_open|]; exact H.
  - unfold run_pending, run_tasks. apply run_tasks_wf. exact H.
Qed.

(** ** Activate: what is left *)

Lemma filter_current_get (cs : CacheStorage) :
  storage_get (filter (fun nc => fst nc =? CACHE_NAME) cs) CACHE_NAME
  = storage_get cs CACHE_NAME.
Proof.
  induction cs as [|[m c] cs IH]; simpl; [reflexivity|].
  destruct (m =? CACHE_NAME) eqn:E; simpl; [rewrite E; reflexivity | exact IH].
Qed.

Lemma filter_current_absent (cs : CacheStorage) :
  storage_has cs CACHE_NAME = false ->
  filter (fun nc => fst nc =? CACHE_NAME) cs = [].
Proof.
  induction cs as [|[m c] cs IH]; simpl; [reflexivity|].
  destruct (m =? CACHE_NAME); simpl; [discriminate | exact IH].
Qed.

Lemma filter_twice {A : Type} (p : A -> bool) (l : list A) :
  filter p (filter p l) = filter p l.
Proof.
  induction l as [|a l IH]; simpl; [reflexivity|].
  destruct (p a) eqn:E; simpl; [rewrite E; congruence | exact IH].
Qed.

(** With unique names, the lookup over what activate leaves is the lookup in
    the current generation. *)
Lemma storage_match_filter_current (cs : CacheStorage) (r : Request) :
  NoDup (storage_keys cs) ->
  storage_match (filter (fun nc => fst nc =? CACHE_NAME) cs) r
  = entry cs CACHE_NAME r.
Proof.
  unfold entry.
  induction cs as [|[m c] cs IH]; simpl; intros H; [reflexivity|].
  inversion H as [|x xs Hnot Hnd]; subst.
  destruct (m =? CACHE_NAME) eqn:E; simpl.
  - apply String.eqb_eq in E. subst m.
    rewrite filter_current_absent.
    + simpl. destruct (cache_match c r); reflexivity.
    + apply not_true_is_false. intros Hh. apply Hnot.
      apply storage_has_In. exact Hh.
  - apply IH. exact Hnd.
Qed.

(** The lookup over what activate leaves finds what the current generation
    holds. *)
Lemma storage_match_filter_entry (cs : CacheStorage) (r : Request)
    (v : Response) :
  entry cs CACHE_NAME r = Some v ->
  storage_match (filter (fun nc => fst nc =? CACHE_NAME) cs) r = Some v.
Proof.
  unfold entry.
  induction cs as [|[m c] cs IH]; simpl; [discriminate|].
  destruct (m =? CACHE_NAME) eqn:E; simpl.
  - intros ->. reflexivity.
  - exact IH.
Qed.

(** X11. Activate keeps the current generation and nothing else matters
    afterwards: every entry of [CACHE_NAME] is as before, no task is started
    or dropped, a second activate changes nothing more, and when
    [CACHE_NAME] does not exist activate leaves the storage empty (it deletes,
    it never creates). With unique generation names, a storage-wide lookup
    after activate finds exactly the entries of [CACHE_NAME]: entries of
    stale generations are no longer served. *)
Theorem activate_keeps_current (w : World) :
  (forall r, entry (storage (snd (activate w))) CACHE_NAME r
             = entry (storage w) CACHE_NAME r) /\
  pending (snd (activate w)) = pending w /\
  storage (snd (activate (snd (activate w)))) = storage (snd (activate w)) /\
  (storage_has (storage w) CACHE_NAME = false ->
   storage (snd (activate w)) = []) /\
  (NoDup (storage_keys (storage w)) ->
   forall r, storage_match (storage (snd (activate w))) r
             = entry (storage w) CACHE_NAME r).
Proof.
  rewrite !activate_run. cbn [snd storage pending].
  split; [|split; [|split; [|split]]].
  - intros r. unfold entry. rewrite filter_current_get. reflexivity.
  - reflexivity.
  - apply filter_twice.
  - apply filter_current_absent.
  - intros H r. apply storage_match_filter_current. exact H.
Qed.

(** ** Install, then offline *)

Lemma storage_match_of_entry (cs : CacheStorage) (n : string) (r : Request)
    (v : Response) :
  entry cs n r = Some v -> exists v', storage_match cs r = Some v'.
Proof.
  unfold entry. destruct (storage_get cs n) as [c|] eqn:G; [|discriminate].
  intros Hm. apply storage_get_In in G.
  destruct (storage_match cs r) as [v'|] eqn:M; [eauto|].
  rewrite storage_match_none in M. rewrite (M n c G) in Hm. discriminate.
Qed.

Lemma asset_request_intercepted (a : string) : intercepted (asset_request a).
Proof. split; reflexivity. Qed.

(** X12. Offline after install. After a fulfilled install, the request
    install made for a manifest URL, made again by a page, is answered from
    the cache without the network: always when it is of the static-asset
    class, and when its network call fails when it is of the navigation
    class. Right after install the answer is a cached response; once activate
    has run it is the response the network gave at install time. *)
Theorem offline_after_install (h : Host) (w : World) :
  fst (install h w) = Fulfilled tt ->
  forall (a : string) (h2 : Host),
    In a ASSETS ->
    (navigation_class (asset_request a) ->
     network h2 (asset_request a) = None) ->
    exists res,
      network h (asset_request a) = Some res /\
      fst (on_fetch h2 (asset_request a) (snd (activate (snd (install h w)))))
      = RespondWith (Fulfilled (Some res)) /\
      exists v,
        fst (on_fetch h2 (asset_request a) (snd (install h w)))
        = RespondWith (Fulfilled (Some v)).
Proof.
  intros Hok a h2 Ha Hoff.
  pose proof (asset_request_intercepted a) as Hi.
  destruct (install_fulfilled h w Hok) as [l [C [_ Hcur]]].
  destruct (@asset_entry h l (current (storage w)) a C Ha) as [res [Hn Hent]].
  rewrite <- Hcur, <- entry_current in Hent.
  exists res. split; [exact Hn|]. split.
  - apply answer_from_cache; [exact Hi | | exact Hoff].
    rewrite activate_run. cbn [snd storage].
    apply storage_match_filter_entry. exact Hent.
  - destruct (@storage_match_of_entry _ _ _ _ Hent) as [v Hv].
    exists v. apply answer_from_cache; assumption.
Qed.

(** ** A stale generation in front of the current one *)

Lemma storage_update_app_absent (cs1 cs2 : CacheStorage) (n : string)
    (f : Cache -> Cache) :
  storage_has cs1 n = false ->
  storage_update (cs1 ++ cs2) n f = cs1 ++ storage_update cs2 n f.
Proof.
  induction cs1 as [|[m c] cs1 IH]; simpl; [reflexivity|].
  destruct (m =? n); simpl; [discriminate|].
  intros H. rewrite IH; auto.
Qed.

Lemma storage_open_behind (cs1 cs2 : CacheStorage) (m n : string) (c : Cache) :
  exists cs2', storage_open (cs1 ++ (m, c) :: cs2) n = cs1 ++ (m, c) :: cs2'.
Proof.
  unfold storage_open.
  destruct (storage_has (cs1 ++ (m, c) :: cs2) n).
  - exists cs2. reflexivity.
  - exists (cs2 ++ [(n, [])]). rewrite <- app_assoc. reflexivity.
Qed.

Lemma NoDup_keys_open (cs : CacheStorage) (n : string) :
  NoDup (storage_keys cs) -> NoDup (storage_keys (storage_open cs n)).
Proof.
  intros H. unfold storage_open. destruct (storage_has cs n) eqn:E; [exact H|].
  unfold storage_keys. rewrite map_app. simpl.
  apply NoDup_app; [exact H | constructor; [intros [] | constructor] |].
  intros m Hin [<-|[]]. apply storage_has_In in Hin. congruence.
Qed.

(** X13. A stale generation created before the current one shadows fresh
    writes. When a generation in front of [CACHE_NAME] holds an entry for a
    navigation-class request, a successful network fetch returns the fresh
    response and writes it into [CACHE_NAME], yet the next offline fallback
    for the request is still answered with the stale entry; after activate,
    with unique generation names, it is answered with the fresh one. *)
Theorem stale_generation_shadows_fresh (h : Host) (e : Request) (w : World)
    (res v0 : Response) (cs1 cs2 : CacheStorage) (n : string) (c : Cache) :
  navigation_class e ->
  network h e = Some res ->
  pending w = [] ->
  storable h e (clone res) = true ->
  storage w = cs1 ++ (n, c) :: cs2 ->
  n <> CACHE_NAME ->
  storage_has cs1 CACHE_NAME = false ->
  storage_match cs1 e = None ->
  cache_match c e = Some v0 ->
  fst (on_fetch h e w) = RespondWith (Fulfilled (Some res)) /\
  entry (storage (run_pending h (snd (on_fetch h e w)))) CACHE_NAME e
  = Some res /\
  (forall h2, network h2 e = None ->
     fst (on_fetch h2 e (run_pending h (snd (on_fetch h e w))))
     = RespondWith (Fulfilled (Some v0))) /\
  (forall h2, network h2 e = None ->
     NoDup (storage_keys (storage w)) ->
     fst (on_fetch h2 e (snd (activate (run_pending h (snd (on_fetch h e w))))))
     = RespondWith (Fulfilled (Some res))).
Proof.
  intros Hc Hn Hp Hs Hst Hne Habs Hmiss Hstale.
  assert (Hi : intercepted e) by apply Hc.
  rewrite (fetched h w Hi Hn (or_introl Hc)). cbn [fst snd].
  match goal with |- context [run_pending h ?x] => set (w1 := x) end.
  assert (S2 : storage (run_pending h w1)
               = storage_update (storage_open (storage w) CACHE_NAME) CACHE_NAME
                   (fun c => cache_put c e (clone res))).
  { apply (run_single_task h w1); [|exact Hs].
    unfold w1. cbn [pending]. rewrite Hp. reflexivity. }
  assert (E2 : entry (storage_update (storage_open (storage w) CACHE_NAME)
                        CACHE_NAME (fun c => cache_put c e (clone res)))
                 CACHE_NAME e = Some res).
  { rewrite entry_after_put, same_request_refl. apply f_equal, clone_id. }
  split; [reflexivity|]. split; [rewrite S2; exact E2|]. split.
  - intros h2 Hoff. apply answer_from_cache; [exact Hi | | auto].
    rewrite S2, Hst.
    destruct (storage_open_behind cs1 cs2 n CACHE_NAME c) as [cs2' ->].
    rewrite (@storage_update_app_absent cs1 _ CACHE_NAME _ Habs). simpl.
    apply String.eqb_neq in Hne. rewrite Hne.
    rewrite storage_match_app, Hmiss. simpl. rewrite Hstale. reflexivity.
  - intros h2 Hoff Hnd. apply answer_from_cache; [exact Hi | | auto].
    rewrite activate_run. cbn [snd storage].
    rewrite storage_match_filter_current.
    + rewrite S2. exact E2.
    + rewrite S2, storage_keys_update. apply NoDup_keys_open. exact Hnd.
Qed.

End Worker.

(** ** The theorems at sample requests *)

Lemma sample_page_intercepted : intercepted sample_origin page_request.
Proof. split; reflexivity. Defined.

Lemma sample_icon_intercepted : intercepted sample_origin icon_request.
Proof. split; reflexivity. Defined.

Lemma sample_icon_static : static_class sample_origin icon_request.
Proof.
  split; [exact sample_icon_intercepted|].
  intros [H|H].
  - revert H. strings_differ.
  - apply (proj2 (endsWith_spec _ _)) in H. vm_compute in H. discriminate H.
Defined.

Lemma sample_online_accepted (a : string) :
  accepted online (asset_request sample_origin sample_scope a).
Proof. eexists. repeat split. Defined.

(** Online, from an empty storage: install succeeds and [./index.html] is
    in the current generation. Offline it is rejected. *)
Lemma install_all_or_nothing_witness :
  (exists res,
     entry (storage (snd (install sample_origin sample_scope online empty_world)))
       CACHE_NAME (asset_request sample_origin sample_scope "./index.html")
     = Some res) /\
  (exists err,
     fst (install sample_origin sample_scope offline empty_world) = Rejected err).
Proof.
  assert (Hok : fst (install sample_origin sample_scope online empty_world)
                = Fulfilled tt) by (vm_compute; reflexivity).
  assert (Hin : In "./index.html" ASSETS) by (right; left; reflexivity).
  assert (Hroot : In "./" ASSETS) by (left; reflexivity).
  split.
  - pose proof (proj1 (install_all_or_nothing sample_origin sample_scope
                         online empty_world)
                  Hok "./index.html" Hin) as H.
    destruct H as [res [_ H]].
    exists res. exact H.
  - apply (proj1 (proj2 (install_all_or_nothing sample_origin sample_scope
                           offline empty_world))).
    exists "./". split; [exact Hroot|].
    intros [res [H _]]. discriminate H.
Defined.

(** The page request, offline and with nothing cached, fails for the page. *)
Lemma total_unavailability_witness :
  delivered (fst (on_fetch sample_origin offline page_request empty_world))
  = Failed.
Proof.
  exact (proj1 (@total_unavailability sample_origin offline page_request
                  empty_world sample_page_intercepted eq_refl eq_refl)).
Defined.

(** From the generations v0 and v1 only v1 is left. *)
Lemma activate_deletes_exactly_stale_witness :
  storage_keys (storage (snd (activate two_generations))) = [CACHE_NAME].
Proof.
  assert (Hstale : "checkmate-gp-v0" <> CACHE_NAME) by strings_differ.
  exact (proj2 (proj2 (proj2 (activate_deletes_exactly_stale two_generations)))
           "checkmate-gp-v0" Hstale eq_refl).
Defined.

(** A POST to another origin passes through. *)
Lemma bypass_untouched_witness :
  on_fetch sample_origin online api_request two_generations
  = (PassThrough, two_generations).
Proof.
  assert (Hpost : method api_request <> "GET") by strings_differ.
  exact (proj1 (@bypass_untouched sample_origin online api_request
                  two_generations (or_introl Hpost))).
Defined.

(** The page request is handled network-first. *)
Lemma classification_witness :
  on_fetch sample_origin online page_request empty_world
  = respondWith (network_first online page_request) empty_world.
Proof.
  apply (proj1 (proj1 (@classification sample_origin online page_request
                         empty_world sample_page_intercepted))).
  left. reflexivity.
Defined.

(** The cached icon is served three times in a row without the network. *)
Lemma cache_hit_no_network_witness :
  fst (on_fetch sample_origin offline icon_request
         (repeat_fetch sample_origin online icon_request 3 two_generations))
  = RespondWith (Fulfilled (Some old_icon)).
Proof.
  apply (proj2 (@cache_hit_no_network sample_origin online icon_request
                  two_generations old_icon sample_icon_static eq_refl) 3 offline).
Defined.

(** The icon is answered from the network while the current generation, just
    opened, is still empty. *)
Lemma response_before_cache_write_witness :
  storage (snd (on_fetch sample_origin online icon_request empty_world))
  = [(CACHE_NAME, [])].
Proof.
  exact (proj1 (proj2 (@response_before_cache_write sample_origin online
                         icon_request empty_world
                         {| status := 200; body := "/gp/icons/icon-192.png" |}
                         sample_icon_intercepted eq_refl
                         (or_intror eq_refl)))).
Defined.

(** Two installs in a row, online, from an empty storage. *)
Lemma install_idempotent_witness :
  storage (snd (install sample_origin sample_scope online
                  (snd (install sample_origin sample_scope online empty_world))))
  = storage (snd (install sample_origin sample_scope online empty_world)).
Proof.
  assert (H1 : fst (install sample_origin sample_scope online empty_world)
               = Fulfilled tt) by (vm_compute; reflexivity).
  assert (H2 : fst (install sample_origin sample_scope online
                      (snd (install sample_origin sample_scope online
                              empty_world)))
               = Fulfilled tt) by (vm_compute; reflexivity).
  apply (proj2 (proj2 (proj2 (@install_idempotent sample_origin sample_scope
                                online online empty_world H1 H2)))).
  reflexivity.
Defined.

(** The icon cached in v0 only is what the listener answers with. *)
Lemma lookup_spans_generations_witness :
  entry (storage two_generations) CACHE_NAME icon_request = None /\
  fst (on_fetch sample_origin offline icon_request two_generations)
  = RespondWith (Fulfilled (Some old_icon)).
Proof.
  assert (Hstale : "checkmate-gp-v0" <> CACHE_NAME) by strings_differ.
  assert (Hrest : forall m c', In (m, c') ([] ++ [("checkmate-gp-v1", [])]) ->
                               cache_match c' icon_request = None).
  { intros m c' [H|[]]. injection H as _ <-. reflexivity. }
  pose proof (proj2 (proj2 (lookup_spans_generations sample_origin offline
                              icon_request two_generations))
                [] "checkmate-gp-v0" [(icon_request, old_icon)]
                [("checkmate-gp-v1", [])] old_icon
                sample_icon_intercepted Hstale eq_refl eq_refl Hrest) as H.
  destruct H as [H1 [H2 _]].
  split; [exact H1 | exact (H2 sample_icon_static)].
Defined.

(** A 404 for the icon is cached and served once the network is gone. *)
Lemma error_responses_cached_witness :
  fst (on_fetch sample_origin offline icon_request
         (run_pending missing
            (snd (on_fetch sample_origin missing icon_request empty_world))))
  = RespondWith (Fulfilled (Some not_found)).
Proof.
  apply (proj1 (proj2 (proj2 (@error_responses_cached sample_origin missing
                                icon_request empty_world not_found
                                sample_icon_intercepted eq_refl
                                (or_intror eq_refl) eq_refl)
                          eq_refl) eq_refl offline)).
  exact sample_icon_static.
Defined.

(** ** The further theorems at sample requests *)

Lemma sample_page_navigation : navigation_class sample_origin page_request.
Proof. split; [exact sample_page_intercepted | left; reflexivity]. Defined.

Lemma sample_names_distinct : NoDup ["checkmate-gp-v0"; "checkmate-gp-v1"].
Proof.
  constructor; [|constructor; [intros [] | constructor]].
  intros [H|[]]. revert H. strings_differ.
Defined.

Lemma sample_post_not_intercepted : ~ intercepted sample_origin api_request.
Proof. intros [H _]. revert H. strings_differ. Defined.

(** Offline, install is rejected and yet the generation exists. *)
Lemma skip_waiting_only_when_installed_witness :
  storage_has
    (storage (snd (install sample_origin sample_scope offline empty_world)))
    CACHE_NAME = true.
Proof.
  pose proof (skip_waiting_only_when_installed sample_origin sample_scope
                offline empty_world) as H.
  destruct H as [l [_ [_ [_ [_ H]]]]]. exact H.
Defined.

(** A rejected install that has written five of the six assets leaves
    generation v0 as it was. *)
Lemma install_touches_manifest_only_witness :
  storage_get
    (storage (snd (install sample_origin sample_scope half_written
                     two_generations)))
    "checkmate-gp-v0"
  = storage_get (storage two_generations) "checkmate-gp-v0".
Proof.
  assert (Hstale : "checkmate-gp-v0" <> CACHE_NAME) by strings_differ.
  exact (proj1 (install_touches_manifest_only sample_origin sample_scope
                  half_written two_generations) "checkmate-gp-v0" Hstale).
Defined.

(** Offline, the page cached in v0 is what the navigation is answered with. *)
Lemma navigation_fallback_witness :
  on_fetch sample_origin offline page_request stale_page
  = (RespondWith (Fulfilled (Some old_page)),
     {| storage := storage stale_page; pending := pending stale_page;
        log := log stale_page ++ [NetFetch page_request;
                                  CachesMatch page_request] |}).
Proof.
  exact (@navigation_fallback sample_origin offline page_request
           stale_page old_page sample_page_navigation eq_refl eq_refl).
Defined.

(** Fetching the icon, cached in v0, changes no lookup. *)
Lemma fetch_listener_frame_witness :
  storage_match
    (storage (snd (on_fetch sample_origin online icon_request two_generations)))
    icon_request
  = storage_match (storage two_generations) icon_request.
Proof.
  exact (proj1 (proj2 (proj2 (fetch_listener_frame sample_origin online
                                icon_request two_generations)))
           icon_request).
Defined.

(** The POST to another origin is not responded to. *)
Lemma fetch_outcome_witness :
  fst (on_fetch sample_origin online api_request empty_world) = PassThrough.
Proof.
  exact (proj2 (proj1 (fetch_outcome sample_origin online api_request
                         empty_world))
           sample_post_not_intercepted).
Defined.


(** Once written, the icon is the entry of its request. *)
Lemma cached_write_frame_witness :
  entry
    (storage
       (run_pending online
          (snd (on_fetch sample_origin online icon_request empty_world))))
    CACHE_NAME icon_request
  = Some {| status := 200; body := "/gp/icons/icon-192.png" |}.
Proof.
  exact (proj1 (proj2 (@cached_write_frame sample_origin online icon_request
                         empty_world
                         {| status := 200; body := "/gp/icons/icon-192.png" |}
                         sample_icon_intercepted eq_refl (or_intror eq_refl)
                         eq_refl eq_refl))).
Defined.

(** The page fetched twice, version 2 last: when the put of version 2
    completes first, the older page is what stays cached. *)
Lemma last_write_wins_witness :
  entry
    (storage
       (run_tasks online
          [OpenPut CACHE_NAME page_request (clone {| status := 200; body := "v2" |});
           OpenPut CACHE_NAME page_request (clone new_page)]
          (snd (on_fetch sample_origin online_v2 page_request
                  (snd (on_fetch sample_origin online page_request
                          empty_world))))))
    CACHE_NAME page_request
  = Some new_page.
Proof.
  exact (proj2 (proj2 (proj2
           (@last_write_wins sample_origin online online_v2 online
              page_request empty_world new_page
              {| status := 200; body := "v2" |}
              sample_page_intercepted eq_refl eq_refl
              (or_introl sample_page_navigation) eq_refl eq_refl eq_refl)))).
Defined.

(** From the generations v0 and v1, install leaves a well-formed storage. *)
Lemma handlers_keep_storage_wf_witness :
  storage_wf
    (storage (snd (install sample_origin sample_scope online two_generations))).
Proof.
  assert (Hwf : storage_wf (storage two_generations)).
  { split; [exact sample_names_distinct|].
    intros n c [H|[H|[]]]; injection H as _ <-.
    - constructor; [intros [] | constructor].
    - constructor. }
  exact (proj1 (@handlers_keep_storage_wf sample_origin sample_scope online
                  icon_request two_generations Hwf)).
Defined.

(** After activate the page cached in v0 only is no longer found. *)
Lemma activate_keeps_current_witness :
  storage_match (storage (snd (activate stale_page))) page_request = None.
Proof.
  pose proof (proj2 (proj2 (proj2 (proj2 (activate_keeps_current stale_page))))
                sample_names_distinct page_request) as H.
  exact H.
Defined.

(** Installed online, then activated: the icon is served offline. *)
Lemma offline_after_install_witness :
  exists res,
    network online
      (asset_request sample_origin sample_scope "./icons/icon-192.png")
    = Some res /\
    fst (on_fetch sample_origin offline
           (asset_request sample_origin sample_scope "./icons/icon-192.png")
           (snd (activate
                   (snd (install sample_origin sample_scope online
                           empty_world)))))
    = RespondWith (Fulfilled (Some res)).
Proof.
  assert (Hok : fst (install sample_origin sample_scope online empty_world)
                = Fulfilled tt) by (vm_compute; reflexivity).
  assert (Hin : In "./icons/icon-192.png" ASSETS)
    by (do 3 right; left; reflexivity).
  pose proof (@offline_after_install sample_origin sample_scope online
                empty_world Hok "./icons/icon-192.png" offline
                Hin (fun _ => eq_refl)) as H.
  destruct H as [res [H1 [H2 _]]].
  exists res. split; [exact H1 | exact H2].
Defined.

(** The page of v0 shadows the fresh page until activate has run. *)
Lemma stale_generation_shadows_fresh_witness :
  fst (on_fetch sample_origin offline page_request
         (run_pending online
            (snd (on_fetch sample_origin online page_request stale_page))))
  = RespondWith (Fulfilled (Some old_page)) /\
  fst (on_fetch sample_origin offline page_request
         (snd (activate
                 (run_pending online
                    (snd (on_fetch sample_origin online page_request
                            stale_page))))))
  = RespondWith (Fulfilled (Some new_page)).
Proof.
  assert (Hstale : "checkmate-gp-v0" <> CACHE_NAME) by strings_differ.
  pose proof (@stale_generation_shadows_fresh sample_origin online page_request
                stale_page new_page old_page [] [("checkmate-gp-v1", [])]
                "checkmate-gp-v0" [(page_request, old_page)]
                sample_page_navigation eq_refl eq_refl eq_refl eq_refl
                Hstale eq_refl eq_refl eq_refl) as H.
  destruct H as [_ [_ [H3 H4]]].
  split.
  - exact (H3 offline eq_refl).
  - exact (H4 offline eq_refl sample_names_distinct).
Defined.
